(** * option_value: Black-Scholes valuation stream

    A shallow embedding of [option_value.py].  Python floats are read as
    exact real numbers (type [R]): there is no rounding, no overflow and no
    underflow, so [OverflowError] does not occur.  A Python exception is an
    explicit [Raise] outcome, so that "returns" and "throws" can be told
    apart. *)

From Stdlib Require Import Reals Lra Lia ZArith List String Ascii Bool.
Import ListNotations.
Open Scope R_scope.

(** ** Outcomes of a Python call *)

(** The exception classes that the modelled code can meet.  All of them
    derive from [Exception]; [ProviderError] stands for whatever the
    market-data library raises (network, parsing, missing symbol). *)
Inductive exn : Type :=
| ValueError
| ZeroDivisionError
| KeyError
| UnboundLocalError
| StatisticsError
| ProviderError (msg : string).

Inductive outcome (A : Type) : Type :=
| Ok (a : A)
| Raise (e : exn).

Arguments Ok {A} a.
Arguments Raise {A} e.

Definition bind {A B : Type} (m : outcome A) (k : A -> outcome B) : outcome B :=
  match m with
  | Ok a => k a
  | Raise e => Raise e
  end.

Notation "x <- m ;; k" := (bind m (fun x => k))
  (at level 61, m at next level, right associativity).

(** [try: m except Exception: h] *)
Definition try_except {A : Type} (m : outcome A) (h : outcome A) : outcome A :=
  match m with
  | Ok a => Ok a
  | Raise _ => h
  end.

Definition throws {A : Type} (m : outcome A) : Prop :=
  exists e, m = Raise e.

Definition returns {A : Type} (m : outcome A) : Prop :=
  exists a, m = Ok a.

(** ** Constants *)

Definition R_DEFAULT : R := 0.05.
Definition SIGMA_DEFAULT : R := 0.25.
Definition SHARES_PER_CONTRACT : R := 100.

(** ** The [math] functions used by the pricing formulas *)

(** [x / y] on Python floats raises [ZeroDivisionError] when [y] is zero.
    A numpy scalar as operand, which divides by zero without raising, is
    outside the model. *)
Definition py_div (x y : R) : outcome R :=
  if Req_dec_T y 0 then Raise ZeroDivisionError else Ok (x / y).

(** [math.log] raises [ValueError] outside the positive reals. *)
Definition py_log (x : R) : outcome R :=
  if Rlt_dec 0 x then Ok (ln x) else Raise ValueError.

(** [math.sqrt] raises [ValueError] on a negative argument. *)
Definition py_sqrt (x : R) : outcome R :=
  if Rle_dec 0 x then Ok (sqrt x) else Raise ValueError.

(** [max(a, b)] keeps [a] unless [b] is strictly larger. *)
Definition py_max (a b : R) : R :=
  if Rlt_dec a b then b else a.

(** ** The error function

    [math.erf] is the C library's error function: the integral of the
    Gaussian [exp (- t^2)] from [0] to [x], scaled by [2 / sqrt PI]. *)

Definition gauss (t : R) : R := exp (- (t * t)).

Lemma gauss_derivable_pt_lim (t : R) :
  derivable_pt_lim gauss t (- (2 * t) * gauss t).
Proof.
  unfold gauss.
  assert (H : derivable_pt_lim (fun u => - (u * u)) t (- (2 * t))).
  { replace (- (2 * t)) with (- (1 * t + t * 1)) by ring.
    apply (derivable_pt_lim_opp (fun u => u * u)).
    apply (derivable_pt_lim_mult id id); apply derivable_pt_lim_id. }
  replace (- (2 * t) * exp (- (t * t))) with (exp (- (t * t)) * - (2 * t)) by ring.
  apply (derivable_pt_lim_comp (fun u => - (u * u)) exp); [exact H|].
  apply derivable_pt_lim_exp.
Qed.

Lemma gauss_continuity : continuity gauss.
Proof.
  intro t. apply derivable_continuous_pt.
  exists (- (2 * t) * gauss t). apply gauss_derivable_pt_lim.
Qed.

Lemma gauss_pos (t : R) : 0 < gauss t.
Proof. apply exp_pos. Qed.

Lemma gauss_le_1 (t : R) : gauss t <= 1.
Proof.
  unfold gauss. rewrite <- exp_0.
  destruct (Req_dec (t * t) 0) as [E|E].
  - rewrite E, Ropp_0. lra.
  - left. apply exp_increasing. nra.
Qed.

Lemma gauss_even (t : R) : gauss (- t) = gauss t.
Proof. unfold gauss. f_equal. ring. Qed.

Lemma gauss_decr (a b : R) : 0 <= a -> a <= b -> gauss b <= gauss a.
Proof.
  intros Ha Hab. unfold gauss.
  destruct (Req_dec (a * a) (b * b)) as [E|E].
  - rewrite E. lra.
  - left. apply exp_increasing. nra.
Qed.

Definition gauss_integrable (a b : R) : Riemann_integrable gauss a b :=
  match Rle_dec a b with
  | left h =>
      continuity_implies_RiemannInt h (fun x _ => gauss_continuity x)
  | right h =>
      RiemannInt_P1
        (continuity_implies_RiemannInt
           (Rlt_le _ _ (Rnot_le_lt _ _ h)) (fun x _ => gauss_continuity x))
  end.

Definition gauss_int (x : R) : R := RiemannInt (gauss_integrable 0 x).

Lemma gauss_int_0 : gauss_int 0 = 0.
Proof. apply RiemannInt_P9. Qed.

Lemma gauss_int_chasles (a b : R) :
  gauss_int b - gauss_int a = RiemannInt (gauss_integrable a b).
Proof.
  unfold gauss_int.
  rewrite <- (RiemannInt_P26 (gauss_integrable 0 a) (gauss_integrable a b)
                (gauss_integrable 0 b)).
  ring.
Qed.

Lemma gauss_int_bounds (a b l u : R) :
  a <= b -> (forall t, a < t < b -> l <= gauss t <= u) ->
  l * (b - a) <= gauss_int b - gauss_int a <= u * (b - a).
Proof.
  intros Hab H. rewrite gauss_int_chasles.
  apply RiemannInt_const_bound; assumption.
Qed.

Lemma gauss_near (x eps : R) :
  0 < eps ->
  exists d, 0 < d /\ forall t, Rabs (t - x) < d -> Rabs (gauss t - gauss x) < eps.
Proof.
  intros He.
  destruct (gauss_continuity x eps He) as [d [Hd H]].
  exists d. split; [exact Hd|].
  intros t Ht.
  destruct (Req_dec x t) as [E|E].
  - subst t. rewrite Rminus_diag, Rabs_R0. exact He.
  - apply (H t). split; [split; [exact I | exact E] | exact Ht].
Qed.

Lemma gauss_int_derivable_pt_lim (x : R) :
  derivable_pt_lim gauss_int x (gauss x).
Proof.
  intros eps He.
  destruct (gauss_near x (eps / 2)) as [d [Hd H]]; [lra|].
  exists (mkposreal d Hd). simpl. intros h Hh0 Hh.
  assert (Hb : forall t, Rabs (t - x) < d ->
                gauss x - eps / 2 <= gauss t <= gauss x + eps / 2).
  { intros t Ht. specialize (H t Ht).
    apply Rabs_def2 in H. lra. }
  assert (Hk : Rabs (gauss_int (x + h) - gauss_int x - gauss x * h)
               <= eps / 2 * Rabs h).
  { destruct (Rlt_le_dec 0 h) as [Hpos|Hneg].
    - rewrite (Rabs_right h) in * by lra.
      destruct (gauss_int_bounds x (x + h) (gauss x - eps / 2) (gauss x + eps / 2))
        as [L U]; [lra| |].
      { intros t Ht. apply Hb. rewrite Rabs_right; lra. }
      replace (x + h - x) with h in L, U by ring.
      apply Rabs_le. lra.
    - assert (Hlt : h < 0) by lra.
      rewrite (Rabs_left h) in * by lra.
      destruct (gauss_int_bounds (x + h) x (gauss x - eps / 2) (gauss x + eps / 2))
        as [L U]; [lra| |].
      { intros t Ht. apply Hb. rewrite Rabs_left; lra. }
      replace (x - (x + h)) with (- h) in L, U by ring.
      apply Rabs_le. lra. }
  replace ((gauss_int (x + h) - gauss_int x) / h - gauss x)
    with ((gauss_int (x + h) - gauss_int x - gauss x * h) / h) by (field; exact Hh0).
  unfold Rdiv. rewrite Rabs_mult, Rabs_inv.
  assert (Hah : 0 < Rabs h) by (apply Rabs_pos_lt; exact Hh0).
  apply Rle_lt_trans with (eps / 2 * Rabs h * / Rabs h).
  - apply Rmult_le_compat_r; [left; apply Rinv_0_lt_compat; exact Hah | exact Hk].
  - rewrite Rmult_assoc, Rinv_r by lra. lra.
Qed.

Lemma deriv_nonneg_incr (f f' : R -> R) (a b : R) :
  a <= b ->
  (forall c, a <= c <= b -> derivable_pt_lim f c (f' c)) ->
  (forall c, a < c < b -> 0 <= f' c) ->
  f a <= f b.
Proof.
  intros Hab Hd Hs.
  destruct (Req_dec a b) as [E|E]; [subst; lra|].
  destruct (MVT_cor2 f f' a b) as [c [Hc Hin]]; [lra | exact Hd |].
  specialize (Hs c Hin). nra.
Qed.

Lemma deriv_nonpos_decr (f f' : R -> R) (a b : R) :
  a <= b ->
  (forall c, a <= c <= b -> derivable_pt_lim f c (f' c)) ->
  (forall c, a < c < b -> f' c <= 0) ->
  f b <= f a.
Proof.
  intros Hab Hd Hs.
  destruct (Req_dec a b) as [E|E]; [subst; lra|].
  destruct (MVT_cor2 f f' a b) as [c [Hc Hin]]; [lra | exact Hd |].
  specialize (Hs c Hin). nra.
Qed.

Lemma gauss_int_odd (x : R) : gauss_int (- x) = - gauss_int x.
Proof.
  set (D := fun t => gauss_int t + gauss_int (- t)).
  assert (HD : forall t, derivable_pt_lim D t 0).
  { intro t. unfold D.
    replace 0 with (gauss t + gauss (- t) * (- 1)) by (rewrite gauss_even; ring).
    apply derivable_pt_lim_plus; [apply gauss_int_derivable_pt_lim|].
    apply (derivable_pt_lim_comp Ropp gauss_int).
    - replace (- 1) with (- (1)) by ring.
      apply (derivable_pt_lim_opp id). apply derivable_pt_lim_id.
    - apply gauss_int_derivable_pt_lim. }
  assert (H0 : D 0 = 0).
  { unfold D. rewrite Ropp_0, gauss_int_0. ring. }
  assert (Hx : D x = 0).
  { destruct (Rle_lt_dec 0 x) as [Hp|Hn].
    - apply Rle_antisym.
      + rewrite <- H0.
        apply (deriv_nonpos_decr D (fun _ => 0) 0 x); [exact Hp | intros; apply HD | intros; lra].
      + rewrite <- H0.
        apply (deriv_nonneg_incr D (fun _ => 0) 0 x); [exact Hp | intros; apply HD | intros; lra].
    - apply Rle_antisym.
      + rewrite <- H0.
        apply (deriv_nonneg_incr D (fun _ => 0) x 0); [lra | intros; apply HD | intros; lra].
      + rewrite <- H0.
        apply (deriv_nonpos_decr D (fun _ => 0) x 0); [lra | intros; apply HD | intros; lra]. }
  unfold D in Hx. lra.
Qed.

Lemma gauss_int_incr (a b : R) : a <= b -> gauss_int a <= gauss_int b.
Proof.
  intro Hab.
  apply (deriv_nonneg_incr gauss_int gauss a b);
    [exact Hab | intros; apply gauss_int_derivable_pt_lim
    | intros; left; apply gauss_pos].
Qed.

Lemma gauss_int_nonneg (x : R) : 0 <= x -> 0 <= gauss_int x.
Proof.
  intro Hx. rewrite <- gauss_int_0. apply gauss_int_incr. exact Hx.
Qed.

(** On [[a, b]] with [0 <= a] the integrand is at most [gauss a]. *)
Lemma gauss_int_step (a b : R) :
  0 <= a -> a <= b -> gauss_int b - gauss_int a <= gauss a * (b - a).
Proof.
  intros Ha Hab.
  destruct (gauss_int_bounds a b 0 (gauss a)) as [_ U]; [exact Hab | | exact U].
  intros t Ht. split; [left; apply gauss_pos | apply gauss_decr; lra].
Qed.

Fixpoint rsum (f : nat -> R) (m : nat) : R :=
  match m with
  | O => 0
  | S k => rsum f k + f k
  end.

Lemma rsum_nonneg (f : nat -> R) (m : nat) :
  (forall k, 0 <= f k) -> 0 <= rsum f m.
Proof.
  intro H. induction m as [|m IH]; simpl; [lra|]. specialize (H m). lra.
Qed.

Lemma rsum_scal (c : R) (f : nat -> R) (m : nat) :
  rsum (fun k => c * f k) m = c * rsum f m.
Proof.
  induction m as [|m IH]; simpl; [ring|]. rewrite IH. ring.
Qed.

Lemma rsum_derivable_pt_lim (f f' : nat -> R -> R) (x : R) (m : nat) :
  (forall k, derivable_pt_lim (f k) x (f' k x)) ->
  derivable_pt_lim (fun t => rsum (fun k => f k t) m) x (rsum (fun k => f' k x) m).
Proof.
  intro H. induction m as [|m IH]; simpl.
  - apply derivable_pt_lim_const.
  - apply (derivable_pt_lim_plus (fun t => rsum (fun k => f k t) m) (f m)).
    + exact IH.
    + apply H.
Qed.

Section RiemannSums.

Variable n : nat.
Let h : R := / INR (S n).

Lemma h_pos : 0 < h.
Proof. apply Rinv_0_lt_compat. apply lt_0_INR. lia. Qed.

Lemma h_full : INR (S n) * h = 1.
Proof. unfold h. apply Rinv_r. apply not_0_INR. lia. Qed.

(** Left Riemann sum of [t |-> gauss (x * t)] over [[0, 1]]. *)
Definition lsum (x : R) (m : nat) : R :=
  rsum (fun k => h * gauss (INR k * h * x)) m.

Lemma gauss_int_le_lsum (x : R) (m : nat) :
  0 <= x -> gauss_int (INR m * h * x) <= x * lsum x m.
Proof.
  intro Hx. pose proof h_pos as Hh.
  induction m as [|m IH].
  - simpl. rewrite !Rmult_0_l, gauss_int_0. unfold lsum. simpl. lra.
  - unfold lsum in *. simpl rsum.
    assert (Hm : 0 <= INR m) by apply pos_INR.
    assert (H1 : 0 <= INR m * h * x).
    { apply Rmult_le_pos; [apply Rmult_le_pos|]; lra. }
    assert (H2 : INR m * h * x <= INR (S m) * h * x).
    { rewrite S_INR. nra. }
    pose proof (gauss_int_step _ _ H1 H2) as Hs.
    replace (INR (S m) * h * x - INR m * h * x) with (h * x) in Hs
      by (rewrite S_INR; ring).
    lra.
Qed.

Definition hterm (k : nat) (x : R) : R :=
  h * exp (- (x * x) * (1 + (INR k * h) * (INR k * h))) / (1 + (INR k * h) * (INR k * h)).

Definition hsum (x : R) : R := rsum (fun k => hterm k x) (S n).

Lemma hterm_nonneg (k : nat) (x : R) : 0 <= hterm k x.
Proof.
  unfold hterm. pose proof h_pos.
  pose proof (exp_pos (- (x * x) * (1 + (INR k * h) * (INR k * h)))).
  apply Rmult_le_pos; [nra|].
  left. apply Rinv_0_lt_compat. nra.
Qed.

Lemma hterm_derivable_pt_lim (k : nat) (x : R) :
  derivable_pt_lim (hterm k) x (- (2 * x) * gauss x * (h * gauss (INR k * h * x))).
Proof.
  unfold hterm. set (a := 1 + (INR k * h) * (INR k * h)).
  assert (Ha : 0 < a) by (unfold a; nra).
  assert (E : exp (- (x * x) * a) = gauss x * gauss (INR k * h * x)).
  { unfold gauss. rewrite <- exp_plus. f_equal. unfold a. ring. }
  replace (- (2 * x) * gauss x * (h * gauss (INR k * h * x)))
    with (h * (exp (- (x * x) * a) * (- (2 * x) * a)) * / a)
    by (rewrite E; field; lra).
  apply (derivable_pt_lim_scal_right (fun t => h * exp (- (t * t) * a))).
  apply (derivable_pt_lim_scal (fun t => exp (- (t * t) * a))).
  apply (derivable_pt_lim_comp (fun t => - (t * t) * a) exp).
  - apply (derivable_pt_lim_scal_right (fun t => - (t * t))).
    replace (- (2 * x)) with (- (1 * x + x * 1)) by ring.
    apply (derivable_pt_lim_opp (fun u => u * u)).
    apply (derivable_pt_lim_mult id id); apply derivable_pt_lim_id.
  - apply derivable_pt_lim_exp.
Qed.

Lemma hsum_derivable_pt_lim (x : R) :
  derivable_pt_lim hsum x (- (2 * x) * gauss x * lsum x (S n)).
Proof.
  unfold hsum, lsum.
  rewrite <- rsum_scal.
  apply (rsum_derivable_pt_lim hterm
           (fun k t => - (2 * t) * gauss t * (h * gauss (INR k * h * t)))).
  intro k. apply hterm_derivable_pt_lim.
Qed.

Definition fsum (x : R) : R := gauss_int x * gauss_int x + hsum x.

Lemma fsum_derivable_pt_lim (x : R) :
  derivable_pt_lim fsum x (2 * gauss x * (gauss_int x - x * lsum x (S n))).
Proof.
  unfold fsum.
  replace (2 * gauss x * (gauss_int x - x * lsum x (S n)))
    with ((gauss x * gauss_int x + gauss_int x * gauss x)
          + - (2 * x) * gauss x * lsum x (S n)) by ring.
  apply derivable_pt_lim_plus; [|apply hsum_derivable_pt_lim].
  apply derivable_pt_lim_mult; apply gauss_int_derivable_pt_lim.
Qed.

Lemma fsum_decr (x : R) : 0 <= x -> fsum x <= fsum 0.
Proof.
  intro Hx.
  apply (deriv_nonpos_decr fsum
           (fun t => 2 * gauss t * (gauss_int t - t * lsum t (S n))) 0 x).
  - exact Hx.
  - intros c _. apply fsum_derivable_pt_lim.
  - intros c Hc.
    pose proof (gauss_pos c) as Hg.
    assert (Hl : gauss_int c <= c * lsum c (S n)).
    { pose proof (gauss_int_le_lsum c (S n)) as H.
      rewrite h_full, Rmult_1_l in H. apply H. lra. }
    nra.
Qed.

(** Left Riemann sum of [t |-> / (1 + t * t)] over [[0, 1]]. *)
Definition asum (m : nat) : R :=
  rsum (fun k => h / (1 + (INR k * h) * (INR k * h))) m.

Lemma fsum_0 : fsum 0 = asum (S n).
Proof.
  unfold fsum, hsum, asum, hterm. rewrite gauss_int_0.
  replace (- (0 * 0)) with 0 by ring.
  assert (E : forall m, rsum (fun k => h * exp (0 * (1 + INR k * h * (INR k * h)))
                                     / (1 + INR k * h * (INR k * h))) m
                      = rsum (fun k => h / (1 + INR k * h * (INR k * h))) m).
  { induction m as [|m IH]; [reflexivity|]. simpl rsum. rewrite IH.
    rewrite Rmult_0_l, exp_0. f_equal. unfold Rdiv. ring. }
  rewrite E. ring.
Qed.

Lemma atan_step (a b : R) :
  0 <= a -> a <= b -> (b - a) / (1 + b * b) <= atan b - atan a.
Proof.
  intros Ha Hab.
  destruct (Req_dec a b) as [E|E].
  - subst. unfold Rdiv. rewrite !Rminus_diag, Rmult_0_l. lra.
  - destruct (MVT_cor2 atan (fun c => / (1 + c ^ 2)) a b) as [c [Hc Hin]];
      [lra | intros; apply derivable_pt_lim_atan |].
    rewrite Hc. unfold Rdiv. rewrite (Rmult_comm (b - a)).
    apply Rmult_le_compat_r; [lra|].
    apply Rinv_le_contravar; nra.
Qed.

Lemma asum_le_atan (m : nat) : asum (S m) <= h + atan (INR m * h).
Proof.
  pose proof h_pos as Hh.
  induction m as [|m IH].
  - unfold asum. simpl. rewrite !Rmult_0_l, atan_0.
    unfold Rdiv. rewrite Rplus_0_r, Rinv_1. lra.
  - unfold asum in *. simpl rsum in *.
    assert (Hm : 0 <= INR m) by apply pos_INR.
    assert (H1 : 0 <= INR m * h) by nra.
    assert (H2 : INR m * h <= INR (S m) * h) by (rewrite S_INR; nra).
    pose proof (atan_step _ _ H1 H2) as Hs.
    replace (INR (S m) * h - INR m * h) with h in Hs by (rewrite S_INR; ring).
    change (match m with O => 1 | S _ => INR m + 1 end) with (INR (S m)) in *.
    lra.
Qed.

Lemma asum_bound : asum (S n) <= h + PI / 4.
Proof.
  pose proof h_pos as Hh.
  apply Rle_trans with (h + atan (INR n * h)); [apply asum_le_atan|].
  apply Rplus_le_compat_l.
  rewrite <- atan_1.
  assert (Hle : INR n * h <= 1).
  { rewrite <- h_full. rewrite S_INR. nra. }
  destruct Hle as [Hlt|Heq].
  - left. apply atan_increasing. exact Hlt.
  - rewrite Heq. lra.
Qed.

Lemma gauss_int_sqr_le (x : R) :
  0 <= x -> gauss_int x * gauss_int x <= PI / 4 + / INR (S n).
Proof.
  intro Hx.
  pose proof (fsum_decr x Hx) as Hd.
  rewrite fsum_0 in Hd. pose proof asum_bound as Ha.
  assert (Hs : 0 <= hsum x).
  { unfold hsum. apply rsum_nonneg. intro k. apply hterm_nonneg. }
  unfold fsum in Hd. fold h. lra.
Qed.

End RiemannSums.

Lemma gauss_int_sqr_bound (x : R) :
  0 <= x -> gauss_int x * gauss_int x <= PI / 4.
Proof.
  intro Hx.
  destruct (Rle_lt_dec (gauss_int x * gauss_int x) (PI / 4)) as [H|H]; [exact H|].
  exfalso.
  destruct (archimed_cor1 (gauss_int x * gauss_int x - PI / 4)) as [N [HN HN0]]; [lra|].
  destruct N as [|n]; [lia|].
  pose proof (gauss_int_sqr_le n x Hx). lra.
Qed.

(** [math.erf] *)
Definition erf (x : R) : R := 2 / sqrt PI * gauss_int x.

Lemma sqrt_PI_pos : 0 < sqrt PI.
Proof. apply sqrt_lt_R0. apply PI_RGT_0. Qed.

Lemma erf_odd (x : R) : erf (- x) = - erf x.
Proof. unfold erf. rewrite gauss_int_odd. ring. Qed.

Lemma erf_0 : erf 0 = 0.
Proof. unfold erf. rewrite gauss_int_0. ring. Qed.

Lemma erf_le_1_nonneg (x : R) : 0 <= x -> erf x <= 1.
Proof.
  intro Hx. unfold erf.
  pose proof sqrt_PI_pos as Hs.
  pose proof (gauss_int_nonneg x Hx) as Hg.
  pose proof (gauss_int_sqr_bound x Hx) as Hb.
  assert (Hsq : sqrt PI * sqrt PI = PI) by (apply sqrt_sqrt; left; apply PI_RGT_0).
  assert (Hle : gauss_int x <= sqrt PI / 2).
  { destruct (Rle_lt_dec (gauss_int x) (sqrt PI / 2)) as [H|H]; [exact H|].
    exfalso. nra. }
  apply Rmult_le_reg_r with (sqrt PI); [exact Hs|].
  replace (2 / sqrt PI * gauss_int x * sqrt PI) with (2 * gauss_int x)
    by (field; lra).
  lra.
Qed.

Lemma erf_nonneg (x : R) : 0 <= x -> 0 <= erf x.
Proof.
  intro Hx. unfold erf. pose proof sqrt_PI_pos.
  apply Rmult_le_pos; [|apply gauss_int_nonneg; exact Hx].
  apply Rmult_le_pos; [lra | left; apply Rinv_0_lt_compat; lra].
Qed.

Lemma erf_bounds (x : R) : -1 <= erf x <= 1.
Proof.
  destruct (Rle_lt_dec 0 x) as [Hp|Hn].
  - pose proof (erf_le_1_nonneg x Hp). pose proof (erf_nonneg x Hp). lra.
  - assert (Hm : 0 <= - x) by lra.
    pose proof (erf_le_1_nonneg _ Hm). pose proof (erf_nonneg _ Hm).
    rewrite erf_odd in *. lra.
Qed.

Lemma erf_derivable_pt_lim (x : R) :
  derivable_pt_lim erf x (2 / sqrt PI * gauss x).
Proof.
  unfold erf. apply derivable_pt_lim_scal. apply gauss_int_derivable_pt_lim.
Qed.

(** The standard normal cumulative distribution as [statistics.NormalDist]
    computes it. *)
Definition Phi (x : R) : R := 0.5 * (1 + erf (x / sqrt 2)).

(** The standard normal density. *)
Definition dnorm (x : R) : R := exp (- (x * x) / 2) / sqrt (2 * PI).

Lemma sqrt_2_pos : 0 < sqrt 2.
Proof. apply sqrt_lt_R0. lra. Qed.

Lemma Phi_sym (x : R) : Phi x + Phi (- x) = 1.
Proof.
  unfold Phi.
  replace (- x / sqrt 2) with (- (x / sqrt 2)) by (field; pose proof sqrt_2_pos; lra).
  rewrite erf_odd. lra.
Qed.

Lemma Phi_bounds (x : R) : 0 <= Phi x <= 1.
Proof. unfold Phi. pose proof (erf_bounds (x / sqrt 2)). lra. Qed.

Lemma dnorm_pos (x : R) : 0 < dnorm x.
Proof.
  unfold dnorm. apply Rdiv_lt_0_compat; [apply exp_pos|].
  apply sqrt_lt_R0. pose proof PI_RGT_0. lra.
Qed.

Lemma Phi_derivable_pt_lim (x : R) : derivable_pt_lim Phi x (dnorm x).
Proof.
  pose proof sqrt_2_pos as H2. pose proof sqrt_PI_pos as HP.
  assert (S2 : sqrt 2 * sqrt 2 = 2) by (apply sqrt_sqrt; lra).
  unfold Phi.
  assert (E : dnorm x = 0.5 * (0 + 2 / sqrt PI * gauss (x / sqrt 2) * (1 * / sqrt 2))).
  { unfold dnorm, gauss.
    rewrite sqrt_mult by (pose proof PI_RGT_0; lra).
    replace (- (x / sqrt 2 * (x / sqrt 2))) with (- (x * x) / 2).
    - replace 0.5 with (/ 2) by lra. field. lra.
    - replace (x / sqrt 2 * (x / sqrt 2)) with (x * x / (sqrt 2 * sqrt 2)) by (field; lra).
      rewrite S2. field. }
  rewrite E.
  apply (derivable_pt_lim_scal (fun t => 1 + erf (t / sqrt 2))).
  apply (derivable_pt_lim_plus (fun _ => 1) (fun t => erf (t / sqrt 2))).
  - apply derivable_pt_lim_const.
  - apply (derivable_pt_lim_comp (fun t => t / sqrt 2) erf).
    + apply (derivable_pt_lim_scal_right id). apply derivable_pt_lim_id.
    + apply erf_derivable_pt_lim.
Qed.

(** ** Black-Scholes formulas for calls and puts *)

(** [NormalDist(mu, sigma).cdf(x)]: the constructor rejects a negative
    [sigma], [cdf] rejects [sigma = 0]. *)
Definition NormalDist_cdf (mu sigma x : R) : outcome R :=
  if Rlt_dec sigma 0 then Raise StatisticsError
  else if Req_dec_T sigma 0 then Raise StatisticsError
  else Ok (0.5 * (1 + erf ((x - mu) / (sigma * sqrt 2)))).

(** The local helper [phi] of both pricing functions. *)
Definition phi (x : R) : outcome R := NormalDist_cdf 0 1 x.

Definition call_value (S K r sigma T : R) : outcome R :=
  if Rle_dec T 0 then Ok (py_max 0 (S - K))
  else
    q <- py_div S K ;;
    l <- py_log q ;;
    sT <- py_sqrt T ;;
    d1 <- py_div (l + (r + 0.5 * sigma ^ 2) * T) (sigma * sT) ;;
    sT' <- py_sqrt T ;;
    let d2 := d1 - sigma * sT' in
    p1 <- phi d1 ;;
    p2 <- phi d2 ;;
    Ok (S * p1 - K * exp (- r * T) * p2).

Definition put_value (S K r sigma T : R) : outcome R :=
  if Rle_dec T 0 then Ok (py_max 0 (K - S))
  else
    q <- py_div S K ;;
    l <- py_log q ;;
    sT <- py_sqrt T ;;
    d1 <- py_div (l + (r + 0.5 * sigma ^ 2) * T) (sigma * sT) ;;
    sT' <- py_sqrt T ;;
    let d2 := d1 - sigma * sT' in
    p2 <- phi (- d2) ;;
    p1 <- phi (- d1) ;;
    Ok (K * exp (- r * T) * p2 - S * p1).

(** The closed forms that the two functions compute when nothing raises. *)
Definition bs_d1 (S K r sigma T : R) : R :=
  (ln (S / K) + (r + 0.5 * sigma ^ 2) * T) / (sigma * sqrt T).

Definition bs_d2 (S K r sigma T : R) : R :=
  bs_d1 S K r sigma T - sigma * sqrt T.

Definition bs_call (S K r sigma T : R) : R :=
  S * Phi (bs_d1 S K r sigma T) - K * exp (- r * T) * Phi (bs_d2 S K r sigma T).

Definition bs_put (S K r sigma T : R) : R :=
  K * exp (- r * T) * Phi (- bs_d2 S K r sigma T) - S * Phi (- bs_d1 S K r sigma T).

(** The precondition the specification wants rejected. *)
Definition invalid_market (S K sigma : R) : Prop :=
  S <= 0 \/ K <= 0 \/ sigma <= 0.

Lemma py_max_Rmax (a b : R) : py_max a b = Rmax a b.
Proof.
  unfold py_max, Rmax.
  destruct (Rlt_dec a b), (Rle_dec a b); try reflexivity; lra.
Qed.

Lemma phi_Phi (x : R) : phi x = Ok (Phi x).
Proof.
  unfold phi, NormalDist_cdf, Phi.
  destruct (Rlt_dec 1 0); [lra|].
  destruct (Req_dec_T 1 0); [lra|].
  f_equal. f_equal. f_equal. f_equal. field.
  pose proof sqrt_2_pos. lra.
Qed.

Lemma py_div_ok (x y : R) : y <> 0 -> py_div x y = Ok (x / y).
Proof. intro H. unfold py_div. destruct (Req_dec_T y 0); [contradiction | reflexivity]. Qed.

Lemma py_div_zero (x : R) : py_div x 0 = Raise ZeroDivisionError.
Proof. unfold py_div. destruct (Req_dec_T 0 0); [reflexivity | contradiction]. Qed.

Lemma py_log_ok (x : R) : 0 < x -> py_log x = Ok (ln x).
Proof. intro H. unfold py_log. destruct (Rlt_dec 0 x); [reflexivity | contradiction]. Qed.

Lemma py_log_domain (x : R) : x <= 0 -> py_log x = Raise ValueError.
Proof. intro H. unfold py_log. destruct (Rlt_dec 0 x); [lra | reflexivity]. Qed.

Lemma py_sqrt_ok (x : R) : 0 <= x -> py_sqrt x = Ok (sqrt x).
Proof. intro H. unfold py_sqrt. destruct (Rle_dec 0 x); [reflexivity | contradiction]. Qed.

Lemma call_value_expired (S K r sigma T : R) :
  T <= 0 -> call_value S K r sigma T = Ok (py_max 0 (S - K)).
Proof. intro H. unfold call_value. destruct (Rle_dec T 0); [reflexivity | contradiction]. Qed.

Lemma put_value_expired (S K r sigma T : R) :
  T <= 0 -> put_value S K r sigma T = Ok (py_max 0 (K - S)).
Proof. intro H. unfold put_value. destruct (Rle_dec T 0); [reflexivity | contradiction]. Qed.

Lemma call_value_live (S K r sigma T : R) :
  0 < T ->
  call_value S K r sigma T =
    (q <- py_div S K ;;
     l <- py_log q ;;
     d1 <- py_div (l + (r + 0.5 * sigma ^ 2) * T) (sigma * sqrt T) ;;
     Ok (S * Phi d1 - K * exp (- r * T) * Phi (d1 - sigma * sqrt T))).
Proof.
  intro HT. unfold call_value.
  destruct (Rle_dec T 0); [lra|].
  rewrite py_sqrt_ok by lra.
  destruct (py_div S K) as [q|e]; [simpl|reflexivity].
  destruct (py_log q) as [l|e]; [simpl|reflexivity].
  destruct (py_div _ _) as [d1|e]; [simpl|reflexivity].
  rewrite !phi_Phi. reflexivity.
Qed.

Lemma put_value_live (S K r sigma T : R) :
  0 < T ->
  put_value S K r sigma T =
    (q <- py_div S K ;;
     l <- py_log q ;;
     d1 <- py_div (l + (r + 0.5 * sigma ^ 2) * T) (sigma * sqrt T) ;;
     Ok (K * exp (- r * T) * Phi (- (d1 - sigma * sqrt T)) - S * Phi (- d1))).
Proof.
  intro HT. unfold put_value.
  destruct (Rle_dec T 0); [lra|].
  rewrite py_sqrt_ok by lra.
  destruct (py_div S K) as [q|e]; [simpl|reflexivity].
  destruct (py_log q) as [l|e]; [simpl|reflexivity].
  destruct (py_div _ _) as [d1|e]; [simpl|reflexivity].
  rewrite !phi_Phi. reflexivity.
Qed.

Lemma sigma_sqrt_nonzero (sigma T : R) : 0 < T -> sigma <> 0 -> sigma * sqrt T <> 0.
Proof.
  intros HT Hs. pose proof (sqrt_lt_R0 T HT).
  apply Rmult_integral_contrapositive_currified; lra.
Qed.

Lemma call_value_formula (S K r sigma T : R) :
  0 < T -> K <> 0 -> 0 < S / K -> sigma <> 0 ->
  call_value S K r sigma T = Ok (bs_call S K r sigma T).
Proof.
  intros HT HK Hq Hs. rewrite call_value_live by exact HT.
  rewrite py_div_ok by exact HK. simpl.
  rewrite py_log_ok by exact Hq. simpl.
  rewrite py_div_ok by (apply sigma_sqrt_nonzero; assumption).
  reflexivity.
Qed.

Lemma put_value_formula (S K r sigma T : R) :
  0 < T -> K <> 0 -> 0 < S / K -> sigma <> 0 ->
  put_value S K r sigma T = Ok (bs_put S K r sigma T).
Proof.
  intros HT HK Hq Hs. rewrite put_value_live by exact HT.
  rewrite py_div_ok by exact HK. simpl.
  rewrite py_log_ok by exact Hq. simpl.
  rewrite py_div_ok by (apply sigma_sqrt_nonzero; assumption).
  reflexivity.
Qed.

(** ** The market-data provider

    [yfinance] is outside the repository.  A provider is what the program
    can observe of it: every call or attribute access either yields data or
    raises.  An [info] or [fast_info] dictionary is a lookup function, where
    [None] stands both for a missing key and for a stored [None]. *)

Record history_frame : Type := {
  hist_empty : bool;                 (* data.empty *)
  hist_last_close : outcome R        (* data["Close"].iloc[-1] *)
}.

Record chain_row : Type := {
  row_strike : R;
  row_impliedVolatility : option R   (* None: field missing or None *)
}.

Record option_chain_t : Type := {
  calls : list chain_row;
  puts : list chain_row
}.

Record ticker_obj : Type := {
  has_fast_info : outcome bool;                    (* hasattr(ticker, 'fast_info') *)
  fast_info : outcome (string -> option R);
  info : outcome (string -> option R);
  history : outcome history_frame;                 (* period="1d", interval="1m" *)
  options : outcome (list string);
  option_chain : string -> outcome option_chain_t
}.

Record provider : Type := {
  Ticker : string -> outcome ticker_obj
}.

(** ** Retrieve risk-free rate *)

Definition get_risk_free_rate (yf : provider) : outcome R :=
  fetched <- try_except
               (ticker <- Ticker yf "^IRX" ;;
                info <- info ticker ;;
                match info "regularMarketPrice"%string with
                | Some r_percent => q <- py_div r_percent 100 ;; Ok (Some q)
                | None => Ok None
                end)
               (Ok None) ;;
  match fetched with
  | Some r => Ok r
  | None => Ok R_DEFAULT
  end.

(** ** Retrieve implied volatility *)

(** [abs(df["strike"] - target_strike)] for one row. *)
Definition row_diff (target_strike : R) (row : chain_row) : R :=
  Rabs (row_strike row - target_strike).

(** [df.loc[df["diff"].idxmin()]]: the first row that attains the minimum. *)
Fixpoint idxmin_row (target_strike : R) (best : chain_row) (rest : list chain_row)
  : chain_row :=
  match rest with
  | [] => best
  | row :: rest' =>
      if Rlt_dec (row_diff target_strike row) (row_diff target_strike best)
      then idxmin_row target_strike row rest'
      else idxmin_row target_strike best rest'
  end.

Definition get_implied_vol (yf : provider) (symbol exp_str option_type : string)
    (target_strike : R) : outcome R :=
  try_except
    (ticker <- Ticker yf symbol ;;
     opts <- options ticker ;;
     if negb (existsb (String.eqb exp_str) opts) then Ok SIGMA_DEFAULT
     else
       chain <- option_chain ticker exp_str ;;
       let df := if String.eqb option_type "call" then calls chain else puts chain in
       match df with
       | [] => Ok SIGMA_DEFAULT
       | first :: rest =>
           let best_row := idxmin_row target_strike first rest in
           match row_impliedVolatility best_row with
           | None => Ok SIGMA_DEFAULT
           | Some sigma_live => Ok sigma_live
           end
       end)
    (Ok SIGMA_DEFAULT).

(** ** Retrieve live underlying price *)

(** The local variable [ticker] is bound only if [yf.Ticker] returned; the
    second [try] block reads it, and reading an unbound local raises
    [UnboundLocalError] inside that block. *)
Definition read_local {A : Type} (binding : outcome A) : outcome A :=
  match binding with
  | Ok a => Ok a
  | Raise _ => Raise UnboundLocalError
  end.

Definition get_live_price (yf : provider) (symbol : string) : outcome (option R) :=
  let ticker := Ticker yf symbol in
  returned <- try_except
                (t <- ticker ;;
                 hf <- has_fast_info t ;;
                 price <- (if (hf : bool)
                           then fi <- fast_info t ;; Ok (fi "lastPrice"%string)
                           else Ok None) ;;
                 match price with
                 | Some p => Ok (Some p)
                 | None =>
                     info <- info t ;;
                     Ok (info "regularMarketPrice"%string)
                 end)
                (Ok None) ;;
  match returned with
  | Some p => Ok (Some p)
  | None =>
      try_except
        (t <- read_local ticker ;;
         data <- history t ;;
         if negb (hist_empty data)
         then c <- hist_last_close data ;; Ok (Some c)
         else Ok None)
        (Ok None)
  end.

(** ** Positions and the screen *)

Record position : Type := {
  ticker : string;
  expiration_date : string;
  option_type : string;
  strike : R;
  move_str : string;
  purchase_price : R;
  contracts : Z
}.

(** The locals of one loop iteration that priced its position. *)
Record valuation : Type := {
  v_position : position;
  v_r_used : R;
  v_sigma_used : R;
  v_live_price : R;
  v_move_val : R;
  v_applied_price : R;
  v_T : R;
  v_bs_val_per_share : R;
  v_total_val : R;
  v_purchase_cost : R;
  v_profit : R
}.

(** What [stdscr.addstr] is given; the text layout is left out. *)
Inductive line : Type :=
| TitleLine
| LastRefreshLine
| RateLine (live_r : R)
| IntervalLine (refresh_interval : Z)
| HeaderLine
| InvalidDateLine (ticker option_type expiration_date : string)
| NoDataLine (ticker option_type : string) (parsed_exp : Z)
| UnknownTypeLine (ticker option_type : string)
| DataLine (v : valuation).

Inductive event : Type :=
| EvResolveRate (r : R)              (* get_risk_free_rate() returned r *)
| EvClear                            (* stdscr.clear() *)
| EvAddstr (y : nat) (l : line)      (* stdscr.addstr(y, 0, l) *)
| EvRefresh                          (* stdscr.refresh() *)
| EvSleep (secs : Z).                (* time.sleep(secs) *)

(** ** Strings *)

Definition is_space (c : ascii) : bool :=
  let n := nat_of_ascii c in
  (((9 <=? n) && (n <=? 13)) || ((28 <=? n) && (n <=? 32)))%nat.

Fixpoint lstrip (s : string) : string :=
  match s with
  | EmptyString => EmptyString
  | String c s' => if is_space c then lstrip s' else s
  end.

Fixpoint rstrip (s : string) : string :=
  match s with
  | EmptyString => EmptyString
  | String c s' =>
      match rstrip s' with
      | EmptyString => if is_space c then EmptyString else String c EmptyString
      | t => String c t
      end
  end.

(** [s.strip()], for ASCII white space. *)
Definition strip (s : string) : string := rstrip (lstrip s).

(** [s.replace('+', '')] *)
Fixpoint remove_plus (s : string) : string :=
  match s with
  | EmptyString => EmptyString
  | String c s' =>
      if Ascii.eqb c "+"%char then remove_plus s' else String c (remove_plus s')
  end.

(** ** Dictionaries keyed by strings *)

Definition dict (V : Type) : Type := list (string * V).

Definition dict_set {V : Type} (d : dict V) (k : string) (v : V) : dict V :=
  (k, v) :: d.

Fixpoint dict_get {V : Type} (d : dict V) (k : string) : option V :=
  match d with
  | [] => None
  | (k', v) :: d' => if String.eqb k k' then Some v else dict_get d' k
  end.

(** ** What one refresh cycle reads from outside

    Dates carry no time zone and are counted in microseconds.
    [dateparser.parse], [float] and [strftime] are library code and enter as
    functions; the clock is read once per row. *)
Record cycle_world : Type := {
  yf : provider;
  positions : list position;               (* the rows kept by the CSV loader *)
  dateparser_parse : string -> option Z;
  datetime_now : nat -> Z;                 (* the clock when row i is valued *)
  strftime_ymd : Z -> string;              (* strftime("%Y-%m-%d") *)
  float_of_string : string -> option R     (* None: float() raises ValueError *)
}.

(** [(a - b).days] of a [timedelta]: whole days, rounded down. *)
Definition timedelta_days (a b : Z) : Z := ((a - b) / 86400000000)%Z.

(** ** One row of the table *)

Definition value_position (w : cycle_world) (live_r : R)
    (ticker_data : dict (option R)) (i : nat) (pos : position) : outcome line :=
  let r_used := live_r in
  match dateparser_parse w (expiration_date pos) with
  | None =>
      Ok (InvalidDateLine (ticker pos) (option_type pos) (expiration_date pos))
  | Some parsed_exp =>
      let T := IZR (timedelta_days parsed_exp (datetime_now w i)) / 365 in
      match dict_get ticker_data (strip (ticker pos)) with
      | None | Some None => Ok (NoDataLine (ticker pos) (option_type pos) parsed_exp)
      | Some (Some live_price) =>
          let move_val :=
            match float_of_string w (remove_plus (move_str pos)) with
            | Some m => m
            | None => 0
            end in
          let applied_price := live_price + move_val in
          let exp_str := strftime_ymd w parsed_exp in
          sigma_used <- get_implied_vol (yf w) (strip (ticker pos)) exp_str
                          (option_type pos) (strike pos) ;;
          let finish (bs_val_per_share : R) : outcome line :=
            let total_val := bs_val_per_share * SHARES_PER_CONTRACT * IZR (contracts pos) in
            let purchase_cost := purchase_price pos * SHARES_PER_CONTRACT * IZR (contracts pos) in
            let profit := total_val - purchase_cost in
            Ok (DataLine {| v_position := pos;
                            v_r_used := r_used;
                            v_sigma_used := sigma_used;
                            v_live_price := live_price;
                            v_move_val := move_val;
                            v_applied_price := applied_price;
                            v_T := T;
                            v_bs_val_per_share := bs_val_per_share;
                            v_total_val := total_val;
                            v_purchase_cost := purchase_cost;
                            v_profit := profit |}) in
          if String.eqb (option_type pos) "call" then
            bs <- call_value applied_price (strike pos) r_used sigma_used T ;;
            finish bs
          else if String.eqb (option_type pos) "put" then
            bs <- put_value applied_price (strike pos) r_used sigma_used T ;;
            finish bs
          else Ok (UnknownTypeLine (ticker pos) (option_type pos))
      end
  end.

(** ** One refresh cycle *)

(** A computation that writes to the screen and may stop on an exception:
    the events it performed, then how it ended. *)
Definition run (A : Type) : Type := (list event * outcome A)%type.

Definition row_start : nat := 6.

(** [for i, pos in enumerate(positions)] from index [i] on.  The screen is
    taken to be tall enough: [addstr] does not fail. *)
Fixpoint rows_loop (w : cycle_world) (live_r : R) (ticker_data : dict (option R))
    (i : nat) (ps : list position) : run unit :=
  match ps with
  | [] => ([], Ok tt)
  | pos :: rest =>
      match value_position w live_r ticker_data i pos with
      | Raise e => ([], Raise e)
      | Ok l =>
          let (tr, o) := rows_loop w live_r ticker_data (S i) rest in
          (EvAddstr (row_start + i) l :: tr, o)
      end
  end.

(** [for tck in unique_tickers: ticker_data[tck.strip()] = get_live_price(...)] *)
Fixpoint fetch_prices (p : provider) (tickers : list string)
    (ticker_data : dict (option R)) : outcome (dict (option R)) :=
  match tickers with
  | [] => Ok ticker_data
  | tck :: rest =>
      let tck_stripped := strip tck in
      price <- get_live_price p tck_stripped ;;
      fetch_prices p rest (dict_set ticker_data tck_stripped price)
  end.

Definition unique_tickers (ps : list position) : list string :=
  nodup string_dec (map ticker ps).

Definition header_events (live_r : R) (refresh_interval : Z) : list event :=
  [ EvAddstr 0 TitleLine;
    EvAddstr 1 LastRefreshLine;
    EvAddstr 2 (RateLine live_r);
    EvAddstr 3 (IntervalLine refresh_interval);
    EvAddstr 5 HeaderLine ].

(** The body of [while True]. *)
Definition refresh_cycle (w : cycle_world) (live_r : R) (refresh_interval : Z)
  : run unit :=
  match fetch_prices (yf w) (unique_tickers (positions w)) [] with
  | Raise e => ([EvClear], Raise e)
  | Ok ticker_data =>
      let (tr, o) := rows_loop w live_r ticker_data 0 (positions w) in
      match o with
      | Raise e => (EvClear :: header_events live_r refresh_interval ++ tr, Raise e)
      | Ok _ =>
          (EvClear :: header_events live_r refresh_interval ++ tr
             ++ [EvRefresh; EvSleep refresh_interval], Ok tt)
      end
  end.

(** ** The streaming loop

    [while True] never ends on its own; [fuel] is the number of cycles that
    are observed.  Hiding the cursor ([curses.curs_set]) leaves no event.  [feed k] is the outside world during cycle [k], and
    [startup] is the provider as it answers before the loop is entered. *)
Fixpoint cycles_from (feed : nat -> cycle_world) (live_r : R)
    (refresh_interval : Z) (k fuel : nat) : run unit :=
  match fuel with
  | O => ([], Ok tt)
  | S fuel' =>
      let (tr, o) := refresh_cycle (feed k) live_r refresh_interval in
      match o with
      | Raise e => (tr, Raise e)
      | Ok _ =>
          let (tr', o') := cycles_from feed live_r refresh_interval (S k) fuel' in
          (tr ++ tr', o')
      end
  end.

Definition stream_valuation (startup : provider) (feed : nat -> cycle_world)
    (refresh_interval : Z) (fuel : nat) : run unit :=
  match get_risk_free_rate startup with
  | Raise e => ([], Raise e)
  | Ok live_r =>
      let (tr, o) := cycles_from feed live_r refresh_interval 0 fuel in
      (EvResolveRate live_r :: tr, o)
  end.

(** ** The slope of the closed forms in the spot *)

Section Delta.

Variables K r sigma T : R.
Hypothesis HK : 0 < K.
Hypothesis Hsigma : 0 < sigma.
Hypothesis HT : 0 < T.

Let v : R := sigma * sqrt T.

Lemma vol_time_pos : 0 < v.
Proof. unfold v. apply Rmult_lt_0_compat; [exact Hsigma | apply sqrt_lt_R0; exact HT]. Qed.

Lemma bs_d1_derivable_pt_lim (s : R) :
  0 < s ->
  derivable_pt_lim (fun x => bs_d1 x K r sigma T) s (/ (s * v)).
Proof.
  intro Hs. pose proof vol_time_pos as Hv.
  unfold bs_d1. fold v.
  replace (/ (s * v)) with ((/ (s / K) * (1 * / K) + 0) * / v)
    by (field; lra).
  apply (derivable_pt_lim_scal_right
           (fun x => ln (x / K) + (r + 0.5 * sigma ^ 2) * T)).
  apply (derivable_pt_lim_plus (fun x => ln (x / K))
           (fun _ => (r + 0.5 * sigma ^ 2) * T)).
  - apply (derivable_pt_lim_comp (fun x => x / K) ln).
    + apply (derivable_pt_lim_scal_right id). apply derivable_pt_lim_id.
    + apply derivable_pt_lim_ln. apply Rdiv_lt_0_compat; lra.
  - apply derivable_pt_lim_const.
Qed.

(** The two density terms of the derivative cancel. *)
Lemma density_balance (s : R) :
  0 < s ->
  s * dnorm (bs_d1 s K r sigma T)
  = K * exp (- r * T) * dnorm (bs_d2 s K r sigma T).
Proof.
  intro Hs. pose proof vol_time_pos as Hv.
  assert (Hq : 0 < s / K) by (apply Rdiv_lt_0_compat; lra).
  assert (Hvv : v * v = sigma ^ 2 * T).
  { unfold v. replace (sigma * sqrt T * (sigma * sqrt T))
      with (sigma ^ 2 * (sqrt T * sqrt T)) by ring.
    rewrite sqrt_sqrt by lra. reflexivity. }
  unfold bs_d2. fold v. set (d := bs_d1 s K r sigma T).
  assert (Hd : d * v = ln (s / K) + (r + 0.5 * sigma ^ 2) * T).
  { unfold d, bs_d1. fold v. field. lra. }
  unfold dnorm.
  assert (Hs2 : 0 < sqrt (2 * PI)).
  { apply sqrt_lt_R0. pose proof PI_RGT_0. lra. }
  assert (E : exp (- ((d - v) * (d - v)) / 2)
              = exp (- (d * d) / 2) * (s / K * exp (r * T))).
  { rewrite <- (exp_ln (s / K)) at 1 by exact Hq.
    rewrite <- !exp_plus. f_equal.
    replace (- ((d - v) * (d - v)) / 2)
      with (- (d * d) / 2 + (d * v - v * v / 2)) by field.
    rewrite Hd, Hvv. lra. }
  rewrite E.
  replace (- r * T) with (- (r * T)) by ring.
  rewrite exp_Ropp. field.
  split; [|split]; try lra.
  apply Rgt_not_eq. apply exp_pos.
Qed.

Lemma bs_call_derivable_pt_lim (s : R) :
  0 < s ->
  derivable_pt_lim (fun x => bs_call x K r sigma T) s (Phi (bs_d1 s K r sigma T)).
Proof.
  intro Hs. pose proof vol_time_pos as Hv.
  unfold bs_call, bs_d2. fold v.
  set (d := bs_d1 s K r sigma T).
  pose proof (density_balance s Hs) as Hb.
  unfold bs_d2 in Hb. fold v in Hb. fold d in Hb.
  replace (Phi d)
    with ((1 * Phi d + s * (dnorm d * / (s * v)))
          - K * exp (- r * T) * (dnorm (d - v) * (/ (s * v) - 0))).
  2:{ transitivity (Phi d + (s * dnorm d - K * exp (- r * T) * dnorm (d - v)) * / (s * v)).
      - field. lra.
      - rewrite Hb. ring. }
  apply (derivable_pt_lim_minus
           (fun x => x * Phi (bs_d1 x K r sigma T))
           (fun x => K * exp (- r * T) * Phi (bs_d1 x K r sigma T - v))).
  - apply (derivable_pt_lim_mult id (fun x => Phi (bs_d1 x K r sigma T))).
    + apply derivable_pt_lim_id.
    + apply (derivable_pt_lim_comp (fun x => bs_d1 x K r sigma T) Phi).
      * apply bs_d1_derivable_pt_lim. exact Hs.
      * apply Phi_derivable_pt_lim.
  - apply (derivable_pt_lim_scal (fun x => Phi (bs_d1 x K r sigma T - v))).
    apply (derivable_pt_lim_comp (fun x => bs_d1 x K r sigma T - v) Phi).
    + apply (derivable_pt_lim_minus (fun x => bs_d1 x K r sigma T) (fun _ => v)).
      * apply bs_d1_derivable_pt_lim. exact Hs.
      * apply derivable_pt_lim_const.
    + apply Phi_derivable_pt_lim.
Qed.

Lemma bs_call_incr (s1 s2 : R) :
  0 < s1 -> s1 <= s2 -> bs_call s1 K r sigma T <= bs_call s2 K r sigma T.
Proof.
  intros H1 H12.
  apply (deriv_nonneg_incr (fun x => bs_call x K r sigma T)
           (fun x => Phi (bs_d1 x K r sigma T)) s1 s2).
  - exact H12.
  - intros c Hc. apply bs_call_derivable_pt_lim. lra.
  - intros c _. apply Phi_bounds.
Qed.

(** The call gains at most as much as the spot does. *)
Lemma bs_call_slope_le_1 (s1 s2 : R) :
  0 < s1 -> s1 <= s2 ->
  bs_call s2 K r sigma T - s2 <= bs_call s1 K r sigma T - s1.
Proof.
  intros H1 H12.
  apply (deriv_nonpos_decr (fun x => bs_call x K r sigma T - x)
           (fun x => Phi (bs_d1 x K r sigma T) - 1) s1 s2).
  - exact H12.
  - intros c Hc.
    apply (derivable_pt_lim_minus (fun x => bs_call x K r sigma T) id).
    + apply bs_call_derivable_pt_lim. lra.
    + apply derivable_pt_lim_id.
  - intros c _. pose proof (Phi_bounds (bs_d1 c K r sigma T)). lra.
Qed.

Lemma bs_put_parity (s : R) :
  bs_put s K r sigma T = bs_call s K r sigma T - s + K * exp (- r * T).
Proof.
  unfold bs_put, bs_call.
  pose proof (Phi_sym (bs_d1 s K r sigma T)) as H1.
  pose proof (Phi_sym (bs_d2 s K r sigma T)) as H2.
  replace (Phi (- bs_d1 s K r sigma T)) with (1 - Phi (bs_d1 s K r sigma T)) by lra.
  replace (Phi (- bs_d2 s K r sigma T)) with (1 - Phi (bs_d2 s K r sigma T)) by lra.
  ring.
Qed.

Lemma bs_put_decr (s1 s2 : R) :
  0 < s1 -> s1 <= s2 -> bs_put s2 K r sigma T <= bs_put s1 K r sigma T.
Proof.
  intros H1 H12. rewrite !bs_put_parity.
  pose proof (bs_call_slope_le_1 s1 s2 H1 H12). lra.
Qed.

End Delta.

(** ** Vocabulary of the statements *)

(** The rate the provider quotes for [^IRX], when it quotes one. *)
Definition provider_rate (yf : provider) : option R :=
  match Ticker yf "^IRX" with
  | Ok t =>
      match info t with
      | Ok d => d "regularMarketPrice"%string
      | Raise _ => None
      end
  | Raise _ => None
  end.

(** A price [p] that the provider itself supplied for the ticker object. *)
Definition supplied_price (t : ticker_obj) (p : R) : Prop :=
  (exists fi, fast_info t = Ok fi /\ fi "lastPrice"%string = Some p) \/
  (exists d, info t = Ok d /\ d "regularMarketPrice"%string = Some p) \/
  (exists h, history t = Ok h /\ hist_last_close h = Ok p).

(** The provider calls that the volatility resolver makes, in order; the
    chain is requested only for a listed expiration. *)
Definition vol_provider_failure (yf : provider) (symbol exp_str : string) : Prop :=
  throws (Ticker yf symbol) \/
  (exists t, Ticker yf symbol = Ok t /\ throws (options t)) \/
  (exists t opts, Ticker yf symbol = Ok t /\ options t = Ok opts /\
                  In exp_str opts /\ throws (option_chain t exp_str)).

Definition rate_provider_failure (yf : provider) : Prop :=
  throws (Ticker yf "^IRX") \/
  (exists t, Ticker yf "^IRX" = Ok t /\ throws (info t)).

(** The first [try] block of the price resolver raises: at the [hasattr]
    probe, at [fast_info], or at [info] once no fast price was found. *)
Inductive first_block_raises (t : ticker_obj) : Prop :=
| hasattr_raises :
    throws (has_fast_info t) -> first_block_raises t
| fast_info_raises :
    has_fast_info t = Ok true -> throws (fast_info t) -> first_block_raises t
| info_raises_after_fast (fi : string -> option R) :
    has_fast_info t = Ok true -> fast_info t = Ok fi ->
    fi "lastPrice"%string = None -> throws (info t) -> first_block_raises t
| info_raises :
    has_fast_info t = Ok false -> throws (info t) -> first_block_raises t.

(** The second [try] block raises: at [history] or at the [Close] lookup. *)
Inductive second_block_raises (t : ticker_obj) : Prop :=
| history_raises :
    throws (history t) -> second_block_raises t
| close_raises (h : history_frame) :
    history t = Ok h -> hist_empty h = false -> throws (hist_last_close h) ->
    second_block_raises t.

(** Both blocks of the price resolver meet an exception of the provider. *)
Definition price_provider_failure (yf : provider) (symbol : string) : Prop :=
  throws (Ticker yf symbol) \/
  (exists t, Ticker yf symbol = Ok t /\ first_block_raises t /\ second_block_raises t).

(** [chain.calls if option_type == "call" else chain.puts] *)
Definition requested_frame (option_type : string) (chain : option_chain_t)
  : list chain_row :=
  if String.eqb option_type "call" then calls chain else puts chain.

(** [row] is an entry of [df] whose strike is nearest to the target. *)
Definition nearest_row (target_strike : R) (df : list chain_row) (row : chain_row)
  : Prop :=
  In row df /\
  forall other, In other df -> row_diff target_strike row <= row_diff target_strike other.

(** The implied volatility read off a row, with the fallback for a missing
    field. *)
Definition row_vol (row : chain_row) : R :=
  match row_impliedVolatility row with
  | Some sigma_live => sigma_live
  | None => 0.25
  end.

(** [value_position] for each position of a list, rows numbered from [i]. *)
Fixpoint row_outcomes (w : cycle_world) (live_r : R) (ticker_data : dict (option R))
    (i : nat) (ps : list position) : list (outcome line) :=
  match ps with
  | [] => []
  | pos :: rest =>
      value_position w live_r ticker_data i pos
        :: row_outcomes w live_r ticker_data (S i) rest
  end.

(** The [addstr] calls that put the given lines on rows [row_start + i], ... *)
Fixpoint addstr_events (i : nat) (ls : list line) : list event :=
  match ls with
  | [] => []
  | l :: ls' => EvAddstr (row_start + i) l :: addstr_events (S i) ls'
  end.

(** The dictionary [ticker_data] that a cycle builds. *)
Definition cycle_ticker_data (w : cycle_world) : dict (option R) :=
  match fetch_prices (yf w) (unique_tickers (positions w)) [] with
  | Ok ticker_data => ticker_data
  | Raise _ => []
  end.

(** [ticker_data.get(ticker.strip(), None)] *)
Definition live_price_of (ticker_data : dict (option R)) (pos : position) : option R :=
  match dict_get ticker_data (strip (ticker pos)) with
  | Some (Some p) => Some p
  | _ => None
  end.

Definition known_type (pos : position) : bool :=
  String.eqb (option_type pos) "call" || String.eqb (option_type pos) "put".

(** The three failures that end a row with a message. *)
Inductive row_failure (w : cycle_world) (ticker_data : dict (option R))
    (pos : position) : line -> Prop :=
| invalid_date :
    dateparser_parse w (expiration_date pos) = None ->
    row_failure w ticker_data pos
      (InvalidDateLine (ticker pos) (option_type pos) (expiration_date pos))
| no_data (parsed_exp : Z) :
    dateparser_parse w (expiration_date pos) = Some parsed_exp ->
    live_price_of ticker_data pos = None ->
    row_failure w ticker_data pos
      (NoDataLine (ticker pos) (option_type pos) parsed_exp)
| unknown_type (parsed_exp : Z) (live_price : R) :
    dateparser_parse w (expiration_date pos) = Some parsed_exp ->
    live_price_of ticker_data pos = Some live_price ->
    known_type pos = false ->
    row_failure w ticker_data pos (UnknownTypeLine (ticker pos) (option_type pos)).

Fixpoint count_resolutions (tr : list event) : nat :=
  match tr with
  | [] => 0
  | EvResolveRate _ :: tr' => S (count_resolutions tr')
  | _ :: tr' => count_resolutions tr'
  end.

(** [float(move_str.replace('+', ''))], with [0.0] on [ValueError]. *)
Definition move_val_of (w : cycle_world) (pos : position) : R :=
  match float_of_string w (remove_plus (move_str pos)) with
  | Some m => m
  | None => 0
  end.

(** [(parsed_exp - datetime.now()).days / 365.0] for row [i]. *)
Definition time_to_expiry (w : cycle_world) (i : nat) (parsed_exp : Z) : R :=
  IZR (timedelta_days parsed_exp (datetime_now w i)) / 365.

(** The pricing call of a row whose type is known. *)
Definition price_position (pos : position) (applied_price r_used sigma_used T : R)
  : outcome R :=
  if String.eqb (option_type pos) "call"
  then call_value applied_price (strike pos) r_used sigma_used T
  else put_value applied_price (strike pos) r_used sigma_used T.

(** The inputs with which the row of [pos] reaches the pricing call. *)
Record priced_with (w : cycle_world) (ticker_data : dict (option R))
    (pos : position) (parsed_exp : Z) (live_price sigma_used : R) : Prop := {
  pw_date : dateparser_parse w (expiration_date pos) = Some parsed_exp;
  pw_price : live_price_of ticker_data pos = Some live_price;
  pw_sigma : get_implied_vol (yf w) (strip (ticker pos)) (strftime_ymd w parsed_exp)
               (option_type pos) (strike pos) = Ok sigma_used;
  pw_type : known_type pos = true
}.

(** What an event shows of the rate: the third header line shows the rate
    of the cycle; a data row carries the rate it was priced with, and its
    value per share is what the pricing call returns at that rate. *)
Definition uses_rate (live_r : R) (ev : event) : Prop :=
  match ev with
  | EvAddstr _ (DataLine v) =>
      v_r_used v = live_r /\
      price_position (v_position v) (v_applied_price v) live_r
        (v_sigma_used v) (v_T v) = Ok (v_bs_val_per_share v)
  | EvAddstr _ (RateLine r) => r = live_r
  | _ => True
  end.

(** A stretch of the trace in which the rate resolver is not called and
    every rate shown is [live_r]. *)
Definition keeps_rate (live_r : R) (tr : list event) : Prop :=
  count_resolutions tr = 0%nat /\ Forall (uses_rate live_r) tr.

(** The rate that [get_risk_free_rate] resolves from a provider. *)
Definition resolved_rate (p : provider) : R :=
  match provider_rate p with
  | Some r_percent => r_percent / 100
  | None => 0.05
  end.

(** ** A small market for the examples *)

(** A provider that lists one expiration with calls at 95, 100 and 105. *)
Definition example_chain : option_chain_t :=
  {| calls := [ {| row_strike := 95; row_impliedVolatility := Some 0.40 |};
                {| row_strike := 100; row_impliedVolatility := Some 0.31 |};
                {| row_strike := 105; row_impliedVolatility := Some 0.28 |} ];
     puts := [] |}.

Definition example_ticker : ticker_obj :=
  {| has_fast_info := Ok true;
     fast_info := Ok (fun _ => Some 105);
     info := Ok (fun _ => Some 5);
     history := Raise (ProviderError "no history");
     options := Ok ["2030-01-18"%string];
     option_chain := fun _ => Ok example_chain |}.

Definition example_yf : provider := {| Ticker := fun _ => Ok example_ticker |}.

(** Thirty days, in microseconds. *)
Definition example_exp : Z := 2592000000000.

Definition example_world (ps : list position) : cycle_world :=
  {| yf := example_yf;
     positions := ps;
     dateparser_parse :=
       fun s => if String.eqb s "2030-01-18" then Some example_exp else None;
     datetime_now := fun _ => 0%Z;
     strftime_ymd := fun _ => "2030-01-18"%string;
     float_of_string :=
       fun s => if String.eqb s "0" then Some 0
                else if String.eqb s "-200" then Some (-200)
                else None |}.

Definition pos_call : position :=
  {| ticker := "ABC"; expiration_date := "2030-01-18"; option_type := "call";
     strike := 100; move_str := "0"; purchase_price := 5; contracts := 2 |}.

(** The same position with a simulated move below zero. *)
Definition pos_crash : position :=
  {| ticker := "ABC"; expiration_date := "2030-01-18"; option_type := "call";
     strike := 100; move_str := "-200"; purchase_price := 5; contracts := 2 |}.

Definition pos_baddate : position :=
  {| ticker := "ABC"; expiration_date := "someday"; option_type := "call";
     strike := 100; move_str := "0"; purchase_price := 5; contracts := 2 |}.

Definition example_data : dict (option R) := [("ABC"%string, Some 105)].

(** The valuation of [pos_call] at rate [live_r]. *)
Definition example_valuation (live_r : R) : valuation :=
  let bs := bs_call (105 + 0) 100 live_r 0.31 (30 / 365) in
  {| v_position := pos_call;
     v_r_used := live_r;
     v_sigma_used := 0.31;
     v_live_price := 105;
     v_move_val := 0;
     v_applied_price := 105 + 0;
     v_T := 30 / 365;
     v_bs_val_per_share := bs;
     v_total_val := bs * SHARES_PER_CONTRACT * IZR 2;
     v_purchase_cost := 5 * SHARES_PER_CONTRACT * IZR 2;
     v_profit := bs * SHARES_PER_CONTRACT * IZR 2 - 5 * SHARES_PER_CONTRACT * IZR 2 |}.

(** ** A provider whose rate quote changes after startup *)

Definition quote_ticker (r_percent : R) : ticker_obj :=
  {| has_fast_info := Ok true;
     fast_info := Ok (fun _ => Some 105);
     info := Ok (fun _ => Some r_percent);
     history := Raise (ProviderError "no history");
     options := Ok ["2030-01-18"%string];
     option_chain := fun _ => Ok example_chain |}.

Definition quote_yf (r_percent : R) : provider :=
  {| Ticker := fun _ => Ok (quote_ticker r_percent) |}.

(** During every cycle the provider quotes 4 percent; no position is held. *)
Definition drift_feed (k : nat) : cycle_world :=
  {| yf := quote_yf 4;
     positions := [];
     dateparser_parse := fun _ => None;
     datetime_now := fun _ => 0%Z;
     strftime_ymd := fun _ => ""%string;
     float_of_string := fun _ => None |}.

(** The events of one cycle without positions. *)
Definition empty_cycle (live_r : R) (refresh_interval : Z) : list event :=
  EvClear :: header_events live_r refresh_interval
    ++ [EvRefresh; EvSleep refresh_interval].

(** ** Reading the positions file

    [csv.reader] yields each record as a list of fields.  The two number
    parsers are [float] and [int]; [None] stands for their [ValueError]. *)

Definition lower_ascii (c : ascii) : ascii :=
  let n := nat_of_ascii c in
  if ((65 <=? n) && (n <=? 90))%nat then ascii_of_nat (n + 32) else c.

(** [s.lower()] *)
Fixpoint lower (s : string) : string :=
  match s with
  | EmptyString => EmptyString
  | String c s' => String (lower_ascii c) (lower s')
  end.

(** [s.startswith('#')] *)
Definition starts_with_hash (s : string) : bool :=
  match s with
  | String c _ => Ascii.eqb c "#"%char
  | EmptyString => false
  end.

(** [row[i]], read only where the row is long enough. *)
Definition field (row : list string) (i : nat) : string := nth i row EmptyString.

(** One pass of the reading loop: [None] is [continue]. *)
Definition load_row (float_of : string -> option R) (int_of : string -> option Z)
    (row : list string) : option position :=
  match row with
  | [] => None
  | first :: _ =>
      if starts_with_hash first then None
      else if (List.length row <? 7)%nat then None
      else
        let ticker := strip (field row 0) in
        let expiration_date := strip (field row 1) in
        let option_type := lower (strip (field row 2)) in
        match float_of (strip (field row 3)) with
        | None => None
        | Some strike =>
            let move_str := strip (field row 4) in
            match float_of (strip (field row 5)) with
            | None => None
            | Some purchase_price =>
                match int_of (strip (field row 6)) with
                | None => None
                | Some contracts =>
                    Some {| ticker := ticker;
                            expiration_date := expiration_date;
                            option_type := option_type;
                            strike := strike;
                            move_str := move_str;
                            purchase_price := purchase_price;
                            contracts := contracts |}
                end
            end
        end
  end.

(** [for row in reader: ... positions.append(...)] *)
Fixpoint load_positions (float_of : string -> option R) (int_of : string -> option Z)
    (rows : list (list string)) : list position :=
  match rows with
  | [] => []
  | row :: rest =>
      match load_row float_of int_of row with
      | Some pos => pos :: load_positions float_of int_of rest
      | None => load_positions float_of int_of rest
      end
  end.

(** What keeps a record out of the position list. *)
Definition row_dropped (float_of : string -> option R) (int_of : string -> option Z)
    (row : list string) : Prop :=
  row = [] \/
  starts_with_hash (field row 0) = true \/
  (List.length row < 7)%nat \/
  float_of (strip (field row 3)) = None \/
  float_of (strip (field row 5)) = None \/
  int_of (strip (field row 6)) = None.

(** ** Further examples *)

Definition example_float (s : string) : option R :=
  if String.eqb s "100" then Some 100
  else if String.eqb s "5" then Some 5
  else None.

Definition example_int (s : string) : option Z :=
  if String.eqb s "2" then Some 2%Z else None.

(** Padded fields, a capitalised type, a move that is no number for
    [example_float], and a trailing note. *)
Definition example_row : list string :=
  [" ABC "; "2030-01-18 "; " Call"; "100"; " +2.5"; "5"; "2"; "note"]%string.

Definition example_loaded : position :=
  {| ticker := "ABC"; expiration_date := "2030-01-18"; option_type := "call";
     strike := 100; move_str := "+2.5"; purchase_price := 5; contracts := 2 |}.

(** ** Further vocabulary of the statements *)

(** [dnorm x + x * Phi x], the antiderivative of [Phi] that vanishes at
    minus infinity. *)
Definition Phi_primitive (x : R) : R := dnorm x + x * Phi x.

(** [Phi x / dnorm x] up to the constant [sqrt (2 * PI)]. *)
Definition Phi_ratio (x : R) : R := Phi x * exp (x * x / 2).

(** The strike as the formulas discount it: not at all once [T <= 0]. *)
Definition discounted_strike (K r T : R) : R :=
  if Rle_dec T 0 then K else K * exp (- r * T).

(** [lam * v] under [Ok]; an exception is passed on. *)
Definition scale_outcome (lam : R) (o : outcome R) : outcome R :=
  match o with
  | Ok v => Ok (lam * v)
  | Raise e => Raise e
  end.

(** The first [try] block finds no quick price: [fast_info] is missing or
    holds no last price. *)
Definition no_fast_price (t : ticker_obj) : Prop :=
  has_fast_info t = Ok false \/
  (has_fast_info t = Ok true /\
   exists fi, fast_info t = Ok fi /\ fi "lastPrice"%string = None).

(** What the second [try] block returns for a bound ticker. *)
Definition history_price (t : ticker_obj) : option R :=
  match history t with
  | Ok data =>
      if hist_empty data then None
      else match hist_last_close data with
           | Ok c => Some c
           | Raise _ => None
           end
  | Raise _ => None
  end.

(** A ticker whose [fast_info] raises, whose [info] holds a quote and
    whose history is empty. *)
Definition broken_fast_ticker : ticker_obj :=
  {| has_fast_info := Ok true;
     fast_info := Raise (ProviderError "timeout");
     info := Ok (fun _ => Some 105);
     history := Ok {| hist_empty := true; hist_last_close := Raise KeyError |};
     options := Ok [];
     option_chain := fun _ => Raise KeyError |}.

Definition broken_fast_yf : provider :=
  {| Ticker := fun _ => Ok broken_fast_ticker |}.

(** One hour before the expiration of the example positions. *)
Definition expiry_day_world (ps : list position) : cycle_world :=
  {| yf := example_yf;
     positions := ps;
     dateparser_parse :=
       fun s => if String.eqb s "2030-01-18" then Some example_exp else None;
     datetime_now := fun _ => (example_exp - 3600000000)%Z;
     strftime_ymd := fun _ => "2030-01-18"%string;
     float_of_string := fun s => if String.eqb s "0" then Some 0 else None |}.

(** A provider that answers nothing at all. *)
Definition silent_yf : provider :=
  {| Ticker := fun _ => Raise (ProviderError "offline") |}.

Definition silent_world (ps : list position) : cycle_world :=
  {| yf := silent_yf;
     positions := ps;
     dateparser_parse :=
       fun s => if String.eqb s "2030-01-18" then Some example_exp else None;
     datetime_now := fun _ => 0%Z;
     strftime_ymd := fun _ => "2030-01-18"%string;
     float_of_string := fun s => if String.eqb s "0" then Some 0 else None |}.

(** The positions file of the examples: a comment, a short record, a
    record whose strike is no number, and one good record. *)
Definition example_rows : list (list string) :=
  [ ["# ticker, expiration, type, strike, move, paid, contracts"];
    ["ABC"; "2030-01-18"; "call"];
    ["ABC"; "2030-01-18"; "call"; "n/a"; "0"; "5"; "2"];
    ["ABC"; "2030-01-18"; "call"; "100"; "0"; "5"; "2"] ]%string.




(** * Properties of the pricing functions *)

(** C4.  With [T <= 0] both pricing functions return exactly the intrinsic
    value, for every spot, strike, rate and volatility: [max(0, S - K)] for
    a call and [max(0, K - S)] for a put. *)
Theorem intrinsic_value_when_expired (S K r sigma T : R) :
  T <= 0 ->
  call_value S K r sigma T = Ok (Rmax 0 (S - K)) /\
  put_value S K r sigma T = Ok (Rmax 0 (K - S)).
Proof.
  intro HT.
  rewrite call_value_expired, put_value_expired by exact HT.
  rewrite !py_max_Rmax. split; reflexivity.
Qed.

Lemma intrinsic_value_when_expired_witness :
  call_value 105 100 0.05 0.25 0 = Ok (Rmax 0 (105 - 100)) /\
  put_value 105 100 0.05 0.25 0 = Ok (Rmax 0 (100 - 105)).
Proof.
  apply (intrinsic_value_when_expired 105 100 0.05 0.25 0).
  apply Rle_refl.
Defined.

(** C1, as the code has it.  With [T > 0], a non-zero strike and a quotient
    [S / K] that is not positive (a spot of zero or below over a positive
    strike, for one) both pricing functions throw instead of reporting an
    error: [math.log] raises [ValueError]. *)
Theorem pricing_throws_on_nonpositive_ratio (S K r sigma T : R) :
  0 < T -> K <> 0 -> S / K <= 0 ->
  call_value S K r sigma T = Raise ValueError /\
  put_value S K r sigma T = Raise ValueError.
Proof.
  intros HT HK Hq. split.
  - rewrite call_value_live by exact HT.
    rewrite py_div_ok by exact HK. simpl. rewrite py_log_domain by exact Hq.
    reflexivity.
  - rewrite put_value_live by exact HT.
    rewrite py_div_ok by exact HK. simpl. rewrite py_log_domain by exact Hq.
    reflexivity.
Qed.

Lemma pricing_throws_on_nonpositive_ratio_witness :
  call_value (-5) 100 0.05 0.25 1 = Raise ValueError /\
  put_value (-5) 100 0.05 0.25 1 = Raise ValueError.
Proof.
  apply (pricing_throws_on_nonpositive_ratio (-5) 100 0.05 0.25 1); lra.
Defined.

(** C1 as the specification words it fails: a spot of zero with [T > 0] is
    an invalid input, and both functions throw on it. *)
Lemma pricing_throws_on_zero_spot :
  0 < 1 /\ invalid_market 0 100 0.25 /\
  throws (call_value 0 100 0.05 0.25 1) /\
  throws (put_value 0 100 0.05 0.25 1).
Proof.
  split; [lra|]. split; [left; lra|].
  assert (Hq : (0 / 100 <= 0)%R) by lra.
  split; exists ValueError.
  - rewrite call_value_live by lra.
    rewrite py_div_ok by lra. simpl. rewrite py_log_domain by exact Hq. reflexivity.
  - rewrite put_value_live by lra.
    rewrite py_div_ok by lra. simpl. rewrite py_log_domain by exact Hq. reflexivity.
Qed.

(** C5.  Put-call parity over the reals: for positive spot, strike,
    volatility and time to expiry both functions return, and the call value
    minus the put value is [S - K * exp (- r * T)]. *)
Theorem put_call_parity (S K r sigma T : R) :
  0 < S -> 0 < K -> 0 < sigma -> 0 < T ->
  exists c p,
    call_value S K r sigma T = Ok c /\
    put_value S K r sigma T = Ok p /\
    c - p = S - K * exp (- r * T).
Proof.
  intros HS HK Hs HT.
  assert (Hq : 0 < S / K) by (apply Rdiv_lt_0_compat; assumption).
  exists (bs_call S K r sigma T), (bs_put S K r sigma T).
  split; [apply call_value_formula; lra|].
  split; [apply put_value_formula; lra|].
  unfold bs_call, bs_put.
  pose proof (Phi_sym (bs_d1 S K r sigma T)) as H1.
  pose proof (Phi_sym (bs_d2 S K r sigma T)) as H2.
  replace (Phi (- bs_d1 S K r sigma T)) with (1 - Phi (bs_d1 S K r sigma T)) by lra.
  replace (Phi (- bs_d2 S K r sigma T)) with (1 - Phi (bs_d2 S K r sigma T)) by lra.
  ring.
Qed.

Lemma put_call_parity_witness :
  exists c p,
    call_value 105 100 0.05 0.25 1 = Ok c /\
    put_value 105 100 0.05 0.25 1 = Ok p /\
    c - p = 105 - 100 * exp (- (0.05) * 1).
Proof.
  apply (put_call_parity 105 100 0.05 0.25 1); lra.
Defined.

(** * Properties of the resolvers *)

Lemma get_risk_free_rate_eq (yf : provider) :
  get_risk_free_rate yf =
    Ok (match provider_rate yf with
        | Some p => p / 100
        | None => 0.05
        end).
Proof.
  unfold get_risk_free_rate, provider_rate.
  destruct (Ticker yf "^IRX") as [t|e]; [simpl|reflexivity].
  destruct (info t) as [d|e]; [simpl|reflexivity].
  destruct (d "regularMarketPrice"%string) as [p|]; [|reflexivity].
  rewrite py_div_ok by lra. reflexivity.
Qed.

(** C10.  When the provider returns a rate value [p] (present, nothing
    raised) the rate resolver returns [p / 100], reading [p] as a percentage;
    in every other case it returns [0.05]. *)
Theorem rate_resolver_percent (yf : provider) :
  get_risk_free_rate yf =
    Ok (match provider_rate yf with
        | Some p => p / 100
        | None => 0.05
        end).
Proof. exact (get_risk_free_rate_eq yf). Qed.

Lemma get_risk_free_rate_returns (yf : provider) : returns (get_risk_free_rate yf).
Proof. rewrite get_risk_free_rate_eq. eexists. reflexivity. Qed.

Lemma try_except_returns {A : Type} (m : outcome A) (a : A) :
  returns (try_except m (Ok a)).
Proof. destruct m as [x|e]; simpl; eexists; reflexivity. Qed.

Lemma get_implied_vol_returns (yf : provider) (symbol exp_str option_type : string)
    (target_strike : R) :
  returns (get_implied_vol yf symbol exp_str option_type target_strike).
Proof. unfold get_implied_vol. apply try_except_returns. Qed.

Lemma get_live_price_returns (yf : provider) (symbol : string) :
  returns (get_live_price yf symbol).
Proof.
  unfold get_live_price.
  destruct (try_except _ (Ok None)) as [[p|]|e] eqn:E; simpl.
  - eexists. reflexivity.
  - apply try_except_returns.
  - exfalso. destruct (try_except_returns
      (t <- Ticker yf symbol;;
       hf <- has_fast_info t;;
       price <- (if hf : bool then fi <- fast_info t;; Ok (fi "lastPrice"%string) else Ok None);;
       match price with
       | Some p => Ok (Some p)
       | None => info0 <- info t;; Ok (info0 "regularMarketPrice"%string)
       end) None) as [x Hx].
    rewrite Hx in E. discriminate.
Qed.

(** The price came from the [history] block of [get_live_price]. *)
Ltac from_history H :=
  match type of H with
  | context [history ?t] =>
      destruct (history t) as [?h|?e]; simpl in H; [|discriminate];
      match type of H with
      | context [hist_empty ?h] =>
          destruct (hist_empty h); simpl in H; [discriminate|];
          destruct (hist_last_close h) as [?c|?e] eqn:?Ec; simpl in H;
          [|discriminate];
          injection H as ->; right; right; exists h; split;
          [reflexivity | assumption]
      end
  end.

Lemma get_live_price_supplied (yf : provider) (symbol : string) (p : R) :
  get_live_price yf symbol = Ok (Some p) ->
  exists t, Ticker yf symbol = Ok t /\ supplied_price t p.
Proof.
  unfold get_live_price, supplied_price.
  destruct (Ticker yf symbol) as [t|e]; simpl; [|discriminate].
  intro H. exists t. split; [reflexivity|].
  destruct (has_fast_info t) as [[|]|e]; simpl in H; [| |from_history H].
  - destruct (fast_info t) as [fi|e]; simpl in H; [|from_history H].
    destruct (fi "lastPrice"%string) as [q|] eqn:Eq; simpl in H.
    + injection H as ->. left. exists fi. split; [reflexivity | exact Eq].
    + destruct (info t) as [d|e]; simpl in H; [|from_history H].
      destruct (d "regularMarketPrice"%string) as [q|] eqn:Ed; simpl in H;
        [|from_history H].
      injection H as ->. right. left. exists d. split; [reflexivity | exact Ed].
  - destruct (info t) as [d|e]; simpl in H; [|from_history H].
    destruct (d "regularMarketPrice"%string) as [q|] eqn:Ed; simpl in H;
      [|from_history H].
    injection H as ->. right. left. exists d. split; [reflexivity | exact Ed].
Qed.

Lemma get_live_price_failure (yf : provider) (symbol : string) :
  price_provider_failure yf symbol -> get_live_price yf symbol = Ok None.
Proof.
  intros [[e H]|[t [Ht [H1 H2]]]]; unfold get_live_price.
  - rewrite H. reflexivity.
  - rewrite Ht. simpl.
    assert (E2 : try_except
                   (data <- history t ;;
                    if negb (hist_empty data)
                    then c <- hist_last_close data ;; Ok (Some c)
                    else Ok None) (Ok None) = Ok None).
    { destruct H2 as [[e H]|h Hh He [e H]].
      - rewrite H. reflexivity.
      - rewrite Hh. simpl. rewrite He. simpl. rewrite H. reflexivity. }
    destruct H1 as [[e H]|Hf [e H]|fi Hf Hfi Hn [e H]|Hf [e H]].
    + rewrite H. simpl. exact E2.
    + rewrite Hf. simpl. rewrite H. simpl. exact E2.
    + rewrite Hf. simpl. rewrite Hfi. simpl. rewrite Hn. rewrite H. simpl. exact E2.
    + rewrite Hf. simpl. rewrite H. simpl. exact E2.
Qed.

Lemma existsb_eqb_In (s : string) (l : list string) :
  existsb (String.eqb s) l = true <-> In s l.
Proof.
  rewrite existsb_exists. split.
  - intros [x [Hin Heq]]. apply String.eqb_eq in Heq. subst. exact Hin.
  - intro Hin. exists s. split; [exact Hin | apply String.eqb_refl].
Qed.

(** C9.  Whatever the provider does, no resolver raises.  When a provider
    call raises, the rate resolver returns the default [0.05] and the
    volatility resolver the default [0.25]; the price resolver returns
    [None] when both of its blocks meet an exception, and a number it
    returns is always one the provider supplied, never a fallback. *)
Theorem resolvers_contain_provider_failures (yf : provider)
    (symbol exp_str option_type : string) (target_strike : R) :
  (returns (get_risk_free_rate yf) /\
   returns (get_implied_vol yf symbol exp_str option_type target_strike) /\
   returns (get_live_price yf symbol)) /\
  (rate_provider_failure yf -> get_risk_free_rate yf = Ok 0.05) /\
  (vol_provider_failure yf symbol exp_str ->
   get_implied_vol yf symbol exp_str option_type target_strike = Ok 0.25) /\
  (price_provider_failure yf symbol -> get_live_price yf symbol = Ok None) /\
  (forall p, get_live_price yf symbol = Ok (Some p) ->
             exists t, Ticker yf symbol = Ok t /\ supplied_price t p).
Proof.
  split; [|split; [|split; [|split]]].
  - split; [apply get_risk_free_rate_returns|].
    split; [apply get_implied_vol_returns | apply get_live_price_returns].
  - intros [[e H]|[t [Ht [e H]]]]; unfold get_risk_free_rate.
    + rewrite H. reflexivity.
    + rewrite Ht. simpl. rewrite H. reflexivity.
  - intros [[e H]|[[t [Ht [e H]]]|[t [opts [Ht [Ho [Hin [e H]]]]]]]];
      unfold get_implied_vol.
    + rewrite H. reflexivity.
    + rewrite Ht. simpl. rewrite H. reflexivity.
    + rewrite Ht. simpl. rewrite Ho. simpl.
      apply existsb_eqb_In in Hin. rewrite Hin. simpl. rewrite H. reflexivity.
  - apply get_live_price_failure.
  - intros p Hp. apply get_live_price_supplied. exact Hp.
Qed.

Lemma idxmin_row_nearest (target_strike : R) (rest : list chain_row) :
  forall best,
    nearest_row target_strike (best :: rest) (idxmin_row target_strike best rest).
Proof.
  induction rest as [|row rest IH]; intro best; simpl.
  - split; [left; reflexivity|].
    intros other [<-|[]]. apply Rle_refl.
  - destruct (Rlt_dec (row_diff target_strike row) (row_diff target_strike best))
      as [Hlt|Hge].
    + destruct (IH row) as [Hin Hmin]. split.
      * right. exact Hin.
      * intros other [<-|Ho].
        -- apply Rle_trans with (row_diff target_strike row);
             [apply Hmin; left; reflexivity | lra].
        -- apply Hmin. exact Ho.
    + destruct (IH best) as [Hin Hmin]. split.
      * destruct Hin as [<-|Hin]; [left; reflexivity | right; right; exact Hin].
      * intros other [<-|[<-|Ho]].
        -- apply Hmin. left. reflexivity.
        -- apply Rle_trans with (row_diff target_strike best);
             [apply Hmin; left; reflexivity | lra].
        -- apply Hmin. right. exact Ho.
Qed.

Lemma idxmin_row_example (target : R) (iv95 iv100 iv105 : option R) :
  97.5 < target < 102.5 ->
  idxmin_row target {| row_strike := 95; row_impliedVolatility := iv95 |}
    [ {| row_strike := 100; row_impliedVolatility := iv100 |};
      {| row_strike := 105; row_impliedVolatility := iv105 |} ]
  = {| row_strike := 100; row_impliedVolatility := iv100 |}.
Proof.
  intro Ht. simpl. unfold row_diff. simpl.
  assert (E95 : Rabs (95 - target) = target - 95) by (rewrite Rabs_left; lra).
  assert (E105 : Rabs (105 - target) = 105 - target) by (rewrite Rabs_right; lra).
  rewrite E95, E105.
  assert (E100 : Rabs (100 - target) < 2.5).
  { apply Rabs_def1; lra. }
  destruct (Rlt_dec (Rabs (100 - target)) (target - 95)); [|lra].
  destruct (Rlt_dec (105 - target) (Rabs (100 - target))); [lra|].
  reflexivity.
Qed.

Lemma get_implied_vol_unlisted (yf : provider)
    (symbol exp_str option_type : string) (target_strike : R)
    (t : ticker_obj) (opts : list string) :
  Ticker yf symbol = Ok t -> options t = Ok opts -> ~ In exp_str opts ->
  get_implied_vol yf symbol exp_str option_type target_strike = Ok 0.25.
Proof.
  intros Ht Ho Hnot. unfold get_implied_vol.
  rewrite Ht. simpl. rewrite Ho. simpl.
  destruct (existsb (String.eqb exp_str) opts) eqn:E; [|reflexivity].
  apply existsb_eqb_In in E. contradiction.
Qed.

Lemma get_implied_vol_listed (yf : provider)
    (symbol exp_str option_type : string) (target_strike : R)
    (t : ticker_obj) (opts : list string) (chain : option_chain_t) :
  Ticker yf symbol = Ok t -> options t = Ok opts -> In exp_str opts ->
  option_chain t exp_str = Ok chain ->
  get_implied_vol yf symbol exp_str option_type target_strike =
    Ok (match requested_frame option_type chain with
        | [] => 0.25
        | first :: rest => row_vol (idxmin_row target_strike first rest)
        end).
Proof.
  intros Ht Ho Hin Hc. unfold get_implied_vol.
  rewrite Ht. simpl. rewrite Ho. simpl.
  apply existsb_eqb_In in Hin. rewrite Hin. simpl. rewrite Hc. simpl.
  fold (requested_frame option_type chain).
  destruct (requested_frame option_type chain) as [|first rest]; [reflexivity|].
  unfold row_vol.
  destruct (row_impliedVolatility (idxmin_row target_strike first rest)); reflexivity.
Qed.

(** C7.  With the expiration listed and a non-empty chain for the requested
    type, the volatility resolver returns the implied volatility of an entry
    whose strike minimises [|strike - target|]; with strikes 95, 100, 105
    and target 101 that is the strike-100 entry.  With the expiration not
    listed, an empty chain or a missing volatility field it returns the
    default [0.25]. *)
Theorem implied_vol_nearest_strike (yf : provider)
    (symbol exp_str option_type : string) (target_strike : R)
    (t : ticker_obj) (opts : list string) :
  Ticker yf symbol = Ok t ->
  options t = Ok opts ->
  (~ In exp_str opts ->
   get_implied_vol yf symbol exp_str option_type target_strike = Ok 0.25) /\
  (forall chain,
      In exp_str opts -> option_chain t exp_str = Ok chain ->
      (requested_frame option_type chain = [] ->
       get_implied_vol yf symbol exp_str option_type target_strike = Ok 0.25) /\
      (requested_frame option_type chain <> [] ->
       exists row,
         nearest_row target_strike (requested_frame option_type chain) row /\
         get_implied_vol yf symbol exp_str option_type target_strike
           = Ok (row_vol row) /\
         (row_impliedVolatility row = None ->
          get_implied_vol yf symbol exp_str option_type target_strike = Ok 0.25))) /\
  (forall iv95 iv100 iv105,
      idxmin_row 101 {| row_strike := 95; row_impliedVolatility := iv95 |}
        [ {| row_strike := 100; row_impliedVolatility := iv100 |};
          {| row_strike := 105; row_impliedVolatility := iv105 |} ]
      = {| row_strike := 100; row_impliedVolatility := iv100 |}).
Proof.
  intros Ht Ho. split; [|split].
  - intro Hnot. apply (get_implied_vol_unlisted _ _ _ _ _ t opts); assumption.
  - intros chain Hin Hc.
    rewrite (get_implied_vol_listed _ _ _ _ _ t opts chain) by assumption.
    split.
    + intros ->. reflexivity.
    + intro Hne.
      destruct (requested_frame option_type chain) as [|first rest]; [contradiction|].
      exists (idxmin_row target_strike first rest).
      split; [apply idxmin_row_nearest|].
      split; [reflexivity|].
      intro Hnone. unfold row_vol. rewrite Hnone. reflexivity.
  - intros iv95 iv100 iv105. apply idxmin_row_example. lra.
Qed.

Lemma implied_vol_nearest_strike_witness :
  exists row,
    nearest_row 101 (calls example_chain) row /\
    get_implied_vol example_yf "ABC" "2030-01-18" "call" 101 = Ok (row_vol row) /\
    (row_impliedVolatility row = None ->
     get_implied_vol example_yf "ABC" "2030-01-18" "call" 101 = Ok 0.25).
Proof.
  pose proof (implied_vol_nearest_strike example_yf "ABC" "2030-01-18" "call" 101
                example_ticker ["2030-01-18"%string] eq_refl eq_refl) as H.
  destruct H as [_ [H _]].
  destruct (H example_chain (or_introl eq_refl) eq_refl) as [_ Hne].
  apply Hne. discriminate.
Defined.

(** * Properties of the valuation loop *)

Lemma fetch_prices_returns (p : provider) (tickers : list string) :
  forall ticker_data, returns (fetch_prices p tickers ticker_data).
Proof.
  induction tickers as [|tck rest IH]; intro ticker_data; simpl.
  - eexists. reflexivity.
  - destruct (get_live_price_returns p (strip tck)) as [price Hp].
    rewrite Hp. simpl. apply IH.
Qed.

Lemma fetch_prices_cycle (w : cycle_world) :
  fetch_prices (yf w) (unique_tickers (positions w)) [] = Ok (cycle_ticker_data w).
Proof.
  unfold cycle_ticker_data.
  destruct (fetch_prices_returns (yf w) (unique_tickers (positions w)) []) as [td H].
  rewrite H. reflexivity.
Qed.

Lemma value_position_failure (w : cycle_world) (live_r : R)
    (ticker_data : dict (option R)) (i : nat) (pos : position) (l : line) :
  row_failure w ticker_data pos l ->
  value_position w live_r ticker_data i pos = Ok l.
Proof.
  intros [Hd | d Hd Hp | d p Hd Hp Ht]; unfold value_position; rewrite Hd.
  - reflexivity.
  - unfold live_price_of in Hp.
    destruct (dict_get ticker_data (strip (ticker pos))) as [[q|]|];
      [discriminate | reflexivity | reflexivity].
  - unfold live_price_of in Hp.
    destruct (dict_get ticker_data (strip (ticker pos))) as [[q|]|];
      [|discriminate|discriminate].
    destruct (get_implied_vol_returns (yf w) (strip (ticker pos))
                (strftime_ymd w d) (option_type pos) (strike pos)) as [s Hs].
    rewrite Hs. simpl.
    unfold known_type in Ht. apply orb_false_iff in Ht. destruct Ht as [H1 H2].
    rewrite H1, H2. reflexivity.
Qed.

Lemma rows_loop_all_ok (w : cycle_world) (live_r : R) (ticker_data : dict (option R))
    (ps : list position) :
  forall i lines,
    row_outcomes w live_r ticker_data i ps = map Ok lines ->
    rows_loop w live_r ticker_data i ps = (addstr_events i lines, Ok tt).
Proof.
  induction ps as [|pos rest IH]; intros i lines H; simpl in *.
  - destruct lines; [reflexivity | discriminate].
  - destruct lines as [|l lines]; [discriminate|]. simpl in H.
    injection H as H1 H2. rewrite H1, (IH _ _ H2). reflexivity.
Qed.

Lemma rows_loop_first_raise (w : cycle_world) (live_r : R)
    (ticker_data : dict (option R)) (ps : list position) :
  forall i lines e others,
    row_outcomes w live_r ticker_data i ps = map Ok lines ++ Raise e :: others ->
    rows_loop w live_r ticker_data i ps = (addstr_events i lines, Raise e).
Proof.
  induction ps as [|pos rest IH]; intros i lines e others H; simpl in *.
  - destruct lines; discriminate.
  - destruct lines as [|l lines]; simpl in H.
    + injection H as H1 H2. rewrite H1. reflexivity.
    + injection H as H1 H2. rewrite H1, (IH _ _ _ _ H2). reflexivity.
Qed.

Lemma value_position_priced (w : cycle_world) (live_r : R)
    (ticker_data : dict (option R)) (i : nat) (pos : position)
    (parsed_exp : Z) (live_price sigma_used : R) :
  priced_with w ticker_data pos parsed_exp live_price sigma_used ->
  value_position w live_r ticker_data i pos =
    (bs <- price_position pos (live_price + move_val_of w pos) live_r sigma_used
             (time_to_expiry w i parsed_exp) ;;
     Ok (DataLine
           {| v_position := pos;
              v_r_used := live_r;
              v_sigma_used := sigma_used;
              v_live_price := live_price;
              v_move_val := move_val_of w pos;
              v_applied_price := live_price + move_val_of w pos;
              v_T := time_to_expiry w i parsed_exp;
              v_bs_val_per_share := bs;
              v_total_val := bs * SHARES_PER_CONTRACT * IZR (contracts pos);
              v_purchase_cost :=
                purchase_price pos * SHARES_PER_CONTRACT * IZR (contracts pos);
              v_profit :=
                bs * SHARES_PER_CONTRACT * IZR (contracts pos)
                - purchase_price pos * SHARES_PER_CONTRACT * IZR (contracts pos) |})).
Proof.
  intros [Hd Hp Hs Ht]. unfold value_position. rewrite Hd.
  unfold live_price_of in Hp.
  destruct (dict_get ticker_data (strip (ticker pos))) as [[q|]|];
    [|discriminate|discriminate].
  injection Hp as ->. rewrite Hs. simpl.
  unfold price_position, move_val_of, time_to_expiry.
  unfold known_type in Ht.
  destruct (String.eqb (option_type pos) "call"); [reflexivity|].
  simpl in Ht. rewrite Ht. reflexivity.
Qed.

(** Every row is a failure row or reaches the pricing call. *)
Lemma value_position_cases (w : cycle_world) (ticker_data : dict (option R))
    (i : nat) (pos : position) :
  (exists l, row_failure w ticker_data pos l) \/
  (exists parsed_exp live_price sigma_used,
      priced_with w ticker_data pos parsed_exp live_price sigma_used).
Proof.
  destruct (dateparser_parse w (expiration_date pos)) as [d|] eqn:Hd.
  - destruct (live_price_of ticker_data pos) as [p|] eqn:Hp.
    + destruct (known_type pos) eqn:Ht.
      * right.
        destruct (get_implied_vol_returns (yf w) (strip (ticker pos))
                    (strftime_ymd w d) (option_type pos) (strike pos)) as [s Hs].
        exists d, p, s. split; assumption.
      * left. eexists. eapply unknown_type; eassumption.
    + left. eexists. eapply no_data; eassumption.
  - left. eexists. apply invalid_date. exact Hd.
Qed.

Lemma value_position_data (w : cycle_world) (live_r : R)
    (ticker_data : dict (option R)) (i : nat) (pos : position) (v : valuation) :
  value_position w live_r ticker_data i pos = Ok (DataLine v) ->
  exists parsed_exp live_price sigma_used bs,
    priced_with w ticker_data pos parsed_exp live_price sigma_used /\
    price_position pos (live_price + move_val_of w pos) live_r sigma_used
      (time_to_expiry w i parsed_exp) = Ok bs /\
    v = {| v_position := pos;
           v_r_used := live_r;
           v_sigma_used := sigma_used;
           v_live_price := live_price;
           v_move_val := move_val_of w pos;
           v_applied_price := live_price + move_val_of w pos;
           v_T := time_to_expiry w i parsed_exp;
           v_bs_val_per_share := bs;
           v_total_val := bs * SHARES_PER_CONTRACT * IZR (contracts pos);
           v_purchase_cost :=
             purchase_price pos * SHARES_PER_CONTRACT * IZR (contracts pos);
           v_profit :=
             bs * SHARES_PER_CONTRACT * IZR (contracts pos)
             - purchase_price pos * SHARES_PER_CONTRACT * IZR (contracts pos) |}.
Proof.
  intro H.
  destruct (value_position_cases w ticker_data i pos) as [[l Hf]|[d [p [s Hpw]]]].
  - rewrite (value_position_failure _ live_r _ i _ _ Hf) in H.
    destruct Hf; discriminate.
  - rewrite (value_position_priced _ live_r _ _ _ _ _ _ Hpw) in H.
    exists d, p, s.
    destruct (price_position pos (p + move_val_of w pos) live_r s
                (time_to_expiry w i d)) as [bs|e]; simpl in H; [|discriminate].
    exists bs. split; [exact Hpw|]. split; [reflexivity|].
    injection H as <-. reflexivity.
Qed.

(** A row raises only inside its pricing call. *)
Lemma value_position_raise (w : cycle_world) (live_r : R)
    (ticker_data : dict (option R)) (i : nat) (pos : position) (e : exn) :
  value_position w live_r ticker_data i pos = Raise e ->
  exists parsed_exp live_price sigma_used,
    priced_with w ticker_data pos parsed_exp live_price sigma_used /\
    price_position pos (live_price + move_val_of w pos) live_r sigma_used
      (time_to_expiry w i parsed_exp) = Raise e.
Proof.
  intro H.
  destruct (value_position_cases w ticker_data i pos) as [[l Hf]|[d [p [s Hpw]]]].
  - rewrite (value_position_failure _ live_r _ i _ _ Hf) in H. discriminate.
  - rewrite (value_position_priced _ live_r _ _ _ _ _ _ Hpw) in H.
    exists d, p, s. split; [exact Hpw|].
    destruct (price_position pos (p + move_val_of w pos) live_r s
                (time_to_expiry w i d)) as [bs|e']; simpl in H; [discriminate|].
    injection H as ->. reflexivity.
Qed.

(** C8.  A position that was valued carries
    [total_val = bs_val_per_share * 100 * contracts],
    [purchase_cost = purchase_price * 100 * contracts] and
    [profit = total_val - purchase_cost], where [bs_val_per_share] is what
    the pricing function of its type returned and 100 is the number of
    shares per contract. *)
Theorem valuation_totals (w : cycle_world) (live_r : R)
    (ticker_data : dict (option R)) (i : nat) (pos : position) (v : valuation) :
  value_position w live_r ticker_data i pos = Ok (DataLine v) ->
  SHARES_PER_CONTRACT = 100 /\
  v_total_val v = v_bs_val_per_share v * 100 * IZR (contracts pos) /\
  v_purchase_cost v = purchase_price pos * 100 * IZR (contracts pos) /\
  v_profit v = v_total_val v - v_purchase_cost v /\
  price_position pos (v_applied_price v) (v_r_used v) (v_sigma_used v) (v_T v)
    = Ok (v_bs_val_per_share v).
Proof.
  intro H.
  destruct (value_position_data _ _ _ _ _ _ H) as [d [p [s [bs [_ [Hb ->]]]]]].
  simpl. unfold SHARES_PER_CONTRACT.
  repeat split; try reflexivity. exact Hb.
Qed.

Lemma keeps_rate_nil (live_r : R) : keeps_rate live_r [].
Proof. split; [reflexivity | constructor]. Qed.

Lemma count_resolutions_app (tr1 tr2 : list event) :
  count_resolutions (tr1 ++ tr2) = (count_resolutions tr1 + count_resolutions tr2)%nat.
Proof.
  induction tr1 as [|ev tr1 IH]; [reflexivity|].
  destruct ev; simpl; rewrite IH; reflexivity.
Qed.

Lemma keeps_rate_app (live_r : R) (tr1 tr2 : list event) :
  keeps_rate live_r tr1 -> keeps_rate live_r tr2 -> keeps_rate live_r (tr1 ++ tr2).
Proof.
  intros [C1 F1] [C2 F2]. split.
  - rewrite count_resolutions_app, C1, C2. reflexivity.
  - apply Forall_app. split; assumption.
Qed.

Lemma keeps_rate_cons (live_r : R) (ev : event) (tr : list event) :
  (forall r, ev <> EvResolveRate r) -> uses_rate live_r ev ->
  keeps_rate live_r tr -> keeps_rate live_r (ev :: tr).
Proof.
  intros Hne Hu [C F]. split.
  - destruct ev; simpl; try exact C. exfalso. apply (Hne r). reflexivity.
  - constructor; assumption.
Qed.

Lemma value_position_uses_rate (w : cycle_world) (live_r : R)
    (ticker_data : dict (option R)) (i y : nat) (pos : position) (l : line) :
  value_position w live_r ticker_data i pos = Ok l ->
  uses_rate live_r (EvAddstr y l).
Proof.
  intro H.
  destruct (value_position_cases w ticker_data i pos) as [[l' Hf]|[d [p [s Hpw]]]].
  - rewrite (value_position_failure _ live_r _ i _ _ Hf) in H.
    injection H as <-. destruct Hf; exact I.
  - rewrite (value_position_priced _ live_r _ i _ _ _ _ Hpw) in H.
    destruct (price_position _ _ _ _ _) as [bs|e] eqn:Ep; simpl in H;
      [|discriminate].
    injection H as <-. split; [reflexivity | exact Ep].
Qed.

Lemma rows_loop_keeps_rate (w : cycle_world) (live_r : R)
    (ticker_data : dict (option R)) (ps : list position) :
  forall i, keeps_rate live_r (fst (rows_loop w live_r ticker_data i ps)).
Proof.
  induction ps as [|pos rest IH]; intro i; simpl.
  - apply keeps_rate_nil.
  - destruct (value_position w live_r ticker_data i pos) as [l|e] eqn:E.
    + specialize (IH (S i)).
      destruct (rows_loop w live_r ticker_data (S i) rest) as [tr o]. simpl in *.
      apply keeps_rate_cons; [discriminate | | exact IH].
      apply (value_position_uses_rate _ _ _ _ _ _ _ E).
    + apply keeps_rate_nil.
Qed.

Lemma header_keeps_rate (live_r : R) (refresh_interval : Z) :
  keeps_rate live_r (header_events live_r refresh_interval).
Proof.
  split; [reflexivity|].
  unfold header_events. repeat constructor.
Qed.

Lemma refresh_cycle_keeps_rate (w : cycle_world) (live_r : R) (refresh_interval : Z) :
  keeps_rate live_r (fst (refresh_cycle w live_r refresh_interval)).
Proof.
  unfold refresh_cycle. rewrite fetch_prices_cycle.
  pose proof (rows_loop_keeps_rate w live_r (cycle_ticker_data w) (positions w) 0%nat) as H.
  destruct (rows_loop w live_r (cycle_ticker_data w) 0 (positions w)) as [tr o].
  simpl in H.
  assert (Hh := header_keeps_rate live_r refresh_interval).
  destruct o as [u|e]; cbn [fst].
  - apply keeps_rate_cons; [discriminate | exact I |].
    apply keeps_rate_app; [exact Hh|].
    apply keeps_rate_app; [exact H|].
    apply keeps_rate_cons; [discriminate | exact I |].
    apply keeps_rate_cons; [discriminate | exact I | apply keeps_rate_nil].
  - apply keeps_rate_cons; [discriminate | exact I |].
    apply keeps_rate_app; assumption.
Qed.

Lemma cycles_from_keeps_rate (feed : nat -> cycle_world) (live_r : R)
    (refresh_interval : Z) (fuel : nat) :
  forall k, keeps_rate live_r (fst (cycles_from feed live_r refresh_interval k fuel)).
Proof.
  induction fuel as [|fuel IH]; intro k; simpl.
  - apply keeps_rate_nil.
  - pose proof (refresh_cycle_keeps_rate (feed k) live_r refresh_interval) as Hc.
    destruct (refresh_cycle (feed k) live_r refresh_interval) as [tr o].
    simpl in Hc. destruct o as [u|e]; [|exact Hc].
    specialize (IH (S k)).
    destruct (cycles_from feed live_r refresh_interval (S k) fuel) as [tr' o'].
    simpl in *. apply keeps_rate_app; assumption.
Qed.

(** C3, as the code has it.  The rate resolver runs once, before the first
    cycle; no cycle runs it again.  The value resolved at startup is the
    rate every cycle shows, and for every position valued in every observed
    cycle it is the rate handed to the pricing function: the value per
    share of the row is what that call returns at this rate. *)
Theorem rate_resolved_once_at_startup (startup : provider)
    (feed : nat -> cycle_world) (refresh_interval : Z) (fuel : nat) :
  exists tr o,
    get_risk_free_rate startup = Ok (resolved_rate startup) /\
    stream_valuation startup feed refresh_interval fuel
      = (EvResolveRate (resolved_rate startup) :: tr, o) /\
    count_resolutions tr = 0%nat /\
    Forall (uses_rate (resolved_rate startup)) tr /\
    (forall k, count_resolutions
                 (fst (refresh_cycle (feed k) (resolved_rate startup) refresh_interval))
               = 0%nat).
Proof.
  unfold stream_valuation, resolved_rate.
  rewrite !get_risk_free_rate_eq.
  set (live_r := match provider_rate startup with
                 | Some p => p / 100
                 | None => 0.05
                 end).
  pose proof (cycles_from_keeps_rate feed live_r refresh_interval fuel 0%nat) as [C F].
  destruct (cycles_from feed live_r refresh_interval 0 fuel) as [tr o]. simpl in *.
  exists tr, o. split; [reflexivity|]. split; [reflexivity|].
  split; [exact C|]. split; [exact F|].
  intro k. apply refresh_cycle_keeps_rate.
Qed.

Lemma example_ticker_data_1 :
  cycle_ticker_data (example_world [pos_baddate; pos_call]) = example_data.
Proof. reflexivity. Qed.

Lemma example_ticker_data_2 :
  cycle_ticker_data (example_world [pos_crash; pos_call]) = example_data.
Proof. reflexivity. Qed.

Lemma example_vol :
  get_implied_vol example_yf "ABC" "2030-01-18" "call" 100 = Ok 0.31.
Proof.
  rewrite (get_implied_vol_listed example_yf "ABC" "2030-01-18" "call" 100
             example_ticker ["2030-01-18"%string] example_chain eq_refl eq_refl
             (or_introl eq_refl) eq_refl).
  change (requested_frame "call" example_chain) with (calls example_chain).
  unfold example_chain, calls.
  rewrite idxmin_row_example by lra. reflexivity.
Qed.

Lemma example_time (ps : list position) (i : nat) :
  time_to_expiry (example_world ps) i example_exp = 30 / 365.
Proof. reflexivity. Qed.

Lemma pos_call_priced (ps : list position) :
  priced_with (example_world ps) example_data pos_call example_exp 105 0.31.
Proof. split; try reflexivity. exact example_vol. Qed.

Lemma pos_crash_priced (ps : list position) :
  priced_with (example_world ps) example_data pos_crash example_exp 105 0.31.
Proof. split; try reflexivity. exact example_vol. Qed.

Lemma pos_call_valued (ps : list position) (live_r : R) (i : nat) :
  value_position (example_world ps) live_r example_data i pos_call
  = Ok (DataLine (example_valuation live_r)).
Proof.
  rewrite (value_position_priced _ _ _ _ _ _ _ _ (pos_call_priced ps)).
  rewrite example_time.
  change (move_val_of (example_world ps) pos_call) with 0.
  unfold price_position. simpl String.eqb. cbv iota.
  change (strike pos_call) with 100.
  rewrite call_value_formula by lra.
  reflexivity.
Qed.

Lemma pos_crash_raises (ps : list position) (live_r : R) (i : nat) :
  value_position (example_world ps) live_r example_data i pos_crash
  = Raise ValueError.
Proof.
  rewrite (value_position_priced _ _ _ _ _ _ _ _ (pos_crash_priced ps)).
  rewrite example_time.
  change (move_val_of (example_world ps) pos_crash) with (-200).
  unfold price_position. simpl String.eqb. cbv iota.
  change (strike pos_crash) with 100.
  rewrite call_value_live by lra.
  rewrite py_div_ok by lra. simpl bind.
  rewrite py_log_domain by lra. reflexivity.
Qed.

Lemma pos_baddate_fails (ps : list position) :
  row_failure (example_world ps) example_data pos_baddate
    (InvalidDateLine "ABC" "call" "someday").
Proof. apply (invalid_date (example_world ps) example_data pos_baddate). reflexivity. Qed.

Lemma refresh_cycle_all_ok (w : cycle_world) (live_r : R) (refresh_interval : Z)
    (lines : list line) :
  row_outcomes w live_r (cycle_ticker_data w) 0 (positions w) = map Ok lines ->
  refresh_cycle w live_r refresh_interval
  = (EvClear :: header_events live_r refresh_interval ++ addstr_events 0 lines
       ++ [EvRefresh; EvSleep refresh_interval], Ok tt).
Proof.
  intro H. unfold refresh_cycle. rewrite fetch_prices_cycle.
  rewrite (rows_loop_all_ok _ _ _ _ _ _ H). reflexivity.
Qed.

Lemma refresh_cycle_first_raise (w : cycle_world) (live_r : R) (refresh_interval : Z)
    (lines : list line) (e : exn) (others : list (outcome line)) :
  row_outcomes w live_r (cycle_ticker_data w) 0 (positions w)
    = map Ok lines ++ Raise e :: others ->
  refresh_cycle w live_r refresh_interval
  = (EvClear :: header_events live_r refresh_interval ++ addstr_events 0 lines,
     Raise e).
Proof.
  intro H. unfold refresh_cycle. rewrite fetch_prices_cycle.
  rewrite (rows_loop_first_raise _ _ _ _ _ _ _ _ H). reflexivity.
Qed.

(** C2.  No exception from one row may end the cycle, and the code keeps
    to this for a bad date, a missing price and an unknown type.  The
    pricing call has no such guard: here the first row prices a negative
    applied price, [math.log] raises, and the cycle ends with that exception
    before any row is shown; the second row, which values without error, is
    never reached. *)
Lemma cycle_aborted_by_pricing_error :
  refresh_cycle (example_world [pos_crash; pos_call]) 0.05 15
    = (EvClear :: header_events 0.05 15, Raise ValueError) /\
  value_position (example_world [pos_crash; pos_call]) 0.05
    (cycle_ticker_data (example_world [pos_crash; pos_call])) 1 pos_call
    = Ok (DataLine (example_valuation 0.05)).
Proof.
  split.
  - rewrite (refresh_cycle_first_raise _ _ _ [] ValueError
               [Ok (DataLine (example_valuation 0.05))]).
    + rewrite app_nil_r. reflexivity.
    + rewrite example_ticker_data_2.
      cbn [row_outcomes positions example_world map app].
      rewrite pos_crash_raises, pos_call_valued. reflexivity.
  - rewrite example_ticker_data_2. apply pos_call_valued.
Qed.

Lemma valuation_totals_witness :
  SHARES_PER_CONTRACT = 100 /\
  v_total_val (example_valuation 0.05)
    = v_bs_val_per_share (example_valuation 0.05) * 100 * IZR (contracts pos_call) /\
  v_purchase_cost (example_valuation 0.05)
    = purchase_price pos_call * 100 * IZR (contracts pos_call) /\
  v_profit (example_valuation 0.05)
    = v_total_val (example_valuation 0.05) - v_purchase_cost (example_valuation 0.05) /\
  price_position pos_call (v_applied_price (example_valuation 0.05))
    (v_r_used (example_valuation 0.05)) (v_sigma_used (example_valuation 0.05))
    (v_T (example_valuation 0.05))
    = Ok (v_bs_val_per_share (example_valuation 0.05)).
Proof.
  apply (valuation_totals (example_world [pos_call]) 0.05 example_data 0 pos_call
           (example_valuation 0.05)).
  apply pos_call_valued.
Defined.

(** C3 as the specification words it fails: the provider quotes 5 percent
    at startup and 4 percent from then on.  Two cycles are run; the resolver
    is called once in all, before the first cycle, and both cycles show the
    startup rate although resolving again would give [4 / 100]. *)
Lemma rate_not_resolved_per_cycle :
  stream_valuation (quote_yf 5) drift_feed 15 2
    = (EvResolveRate (5 / 100)
         :: empty_cycle (5 / 100) 15 ++ empty_cycle (5 / 100) 15, Ok tt) /\
  count_resolutions (empty_cycle (5 / 100) 15) = 0%nat /\
  get_risk_free_rate (yf (drift_feed 1)) = Ok (4 / 100).
Proof.
  split; [|split].
  - unfold stream_valuation. rewrite get_risk_free_rate_eq. reflexivity.
  - reflexivity.
  - rewrite get_risk_free_rate_eq. reflexivity.
Qed.

(** * Properties of the positions file reader *)

Lemma rstrip_cons (c : ascii) (s : string) :
  rstrip (String c s)
  = match rstrip s with
    | EmptyString => if is_space c then EmptyString else String c EmptyString
    | String d t => String c (String d t)
    end.
Proof. reflexivity. Qed.

Lemma rstrip_idempotent (s : string) : rstrip (rstrip s) = rstrip s.
Proof.
  induction s as [|c s IH]; [reflexivity|].
  rewrite rstrip_cons. destruct (rstrip s) as [|d t] eqn:E.
  - destruct (is_space c) eqn:Ec; [reflexivity|].
    rewrite rstrip_cons. simpl rstrip. rewrite Ec. reflexivity.
  - rewrite rstrip_cons, IH. reflexivity.
Qed.

Lemma lstrip_head (s : string) :
  lstrip s = EmptyString \/
  exists c t, lstrip s = String c t /\ is_space c = false.
Proof.
  induction s as [|c s IH]; [left; reflexivity|].
  simpl. destruct (is_space c) eqn:Ec; [exact IH|].
  right. exists c, s. split; [reflexivity | exact Ec].
Qed.

Lemma rstrip_keeps_head (c : ascii) (t : string) :
  is_space c = false -> exists t', rstrip (String c t) = String c t'.
Proof.
  intro Hc. rewrite rstrip_cons. destruct (rstrip t) as [|d u].
  - rewrite Hc. exists EmptyString. reflexivity.
  - exists (String d u). reflexivity.
Qed.

Lemma lstrip_fixed (c : ascii) (t : string) :
  is_space c = false -> lstrip (String c t) = String c t.
Proof. intro Hc. simpl. rewrite Hc. reflexivity. Qed.

Lemma strip_idempotent (s : string) : strip (strip s) = strip s.
Proof.
  unfold strip.
  destruct (lstrip_head s) as [E|[c [t [E Hc]]]]; rewrite E.
  - reflexivity.
  - destruct (rstrip_keeps_head c t Hc) as [t' E'].
    rewrite E', (lstrip_fixed c t' Hc), <- E'. apply rstrip_idempotent.
Qed.

Lemma lower_ascii_idempotent (c : ascii) : lower_ascii (lower_ascii c) = lower_ascii c.
Proof. destruct c as [[] [] [] [] [] [] [] []]; reflexivity. Qed.

Lemma lower_idempotent (s : string) : lower (lower s) = lower s.
Proof.
  induction s as [|c s IH]; [reflexivity|].
  simpl. rewrite lower_ascii_idempotent, IH. reflexivity.
Qed.

(** X1.  A record is skipped exactly when it is empty, is a comment, has fewer
    than seven fields, or its strike, purchase price or contract count does
    not parse; the simulated move is not looked at. *)
Theorem load_row_dropped_iff (float_of : string -> option R)
    (int_of : string -> option Z) (row : list string) :
  load_row float_of int_of row = None <-> row_dropped float_of int_of row.
Proof.
  unfold row_dropped, load_row.
  destruct row as [|first rest]; [split; [left; reflexivity | reflexivity]|].
  change (field (first :: rest) 0) with first.
  destruct (starts_with_hash first) eqn:Eh.
  { split; [right; left; reflexivity | reflexivity]. }
  destruct (List.length (first :: rest) <? 7)%nat eqn:El.
  { apply Nat.ltb_lt in El. split; [right; right; left; exact El | reflexivity]. }
  apply Nat.ltb_ge in El.
  destruct (float_of (strip (field (first :: rest) 3))) as [k|] eqn:E3.
  2:{ split; [right; right; right; left; reflexivity | reflexivity]. }
  destruct (float_of (strip (field (first :: rest) 5))) as [pp|] eqn:E5.
  2:{ split; [do 4 right; left; reflexivity | reflexivity]. }
  destruct (int_of (strip (field (first :: rest) 6))) as [n|] eqn:E6.
  2:{ split; [do 5 right; reflexivity | reflexivity]. }
  split; [discriminate|].
  intros [H|[H|[H|[H|[H|H]]]]]; try discriminate. lia.
Qed.

(** X2.  A skipped record removes nothing but itself, and the positions keep the
    order of the file. *)
Theorem load_positions_around (float_of : string -> option R)
    (int_of : string -> option Z) (before : list (list string))
    (row : list string) (after : list (list string)) :
  load_positions float_of int_of (before ++ row :: after)
  = load_positions float_of int_of before
      ++ match load_row float_of int_of row with
         | Some pos => [pos]
         | None => []
         end
      ++ load_positions float_of int_of after.
Proof.
  induction before as [|r before IH]; simpl.
  - destruct (load_row float_of int_of row); reflexivity.
  - rewrite IH. destruct (load_row float_of int_of r); reflexivity.
Qed.

(** X3.  The text fields of a loaded position are already normalised: stripping
    the ticker, the expiration or the move again changes nothing, and the
    option type is in lower case. *)
Theorem load_row_normalised (float_of : string -> option R)
    (int_of : string -> option Z) (row : list string) (pos : position) :
  load_row float_of int_of row = Some pos ->
  strip (ticker pos) = ticker pos /\
  strip (expiration_date pos) = expiration_date pos /\
  strip (move_str pos) = move_str pos /\
  lower (option_type pos) = option_type pos /\
  option_type pos = lower (strip (field row 2)).
Proof.
  unfold load_row.
  destruct row as [|first rest]; [discriminate|].
  destruct (starts_with_hash first); [discriminate|].
  destruct (List.length (first :: rest) <? 7)%nat; [discriminate|].
  destruct (float_of (strip (field (first :: rest) 3))); [|discriminate].
  destruct (float_of (strip (field (first :: rest) 5))); [|discriminate].
  destruct (int_of (strip (field (first :: rest) 6))); [|discriminate].
  intro H. injection H as <-. cbn [ticker expiration_date move_str option_type].
  rewrite !strip_idempotent, lower_idempotent. repeat split; reflexivity.
Qed.

(** X4.  Fields after the seventh are ignored. *)
Theorem load_row_extra_fields (float_of : string -> option R)
    (int_of : string -> option Z) (row : list string) :
  (7 <= List.length row)%nat ->
  load_row float_of int_of row = load_row float_of int_of (firstn 7 row).
Proof.
  intro H.
  destruct row as [|f0 [|f1 [|f2 [|f3 [|f4 [|f5 [|f6 rest]]]]]]]; simpl in H; try lia.
  unfold load_row.
  cbn [firstn field nth].
  replace (List.length (f0 :: f1 :: f2 :: f3 :: f4 :: f5 :: f6 :: rest) <? 7)%nat
    with false by (symmetry; apply Nat.ltb_ge; simpl; lia).
  reflexivity.
Qed.

Lemma example_row_loaded :
  load_row example_float example_int example_row = Some example_loaded.
Proof. reflexivity. Qed.

Lemma load_row_normalised_witness :
  strip (ticker example_loaded) = ticker example_loaded /\
  strip (expiration_date example_loaded) = expiration_date example_loaded /\
  strip (move_str example_loaded) = move_str example_loaded /\
  lower (option_type example_loaded) = option_type example_loaded /\
  option_type example_loaded = lower (strip (field example_row 2)).
Proof.
  apply (load_row_normalised example_float example_int example_row example_loaded).
  exact example_row_loaded.
Defined.

Lemma load_row_extra_fields_witness :
  load_row example_float example_int example_row
  = load_row example_float example_int (firstn 7 example_row).
Proof.
  apply (load_row_extra_fields example_float example_int example_row).
  simpl. lia.
Defined.

(** ** The error function reaches its bound

    The mirror image of the bound on [gauss_int]: right Riemann sums in
    place of left ones give [PI / 4 - gauss x <= gauss_int x ^ 2]. *)

Lemma gauss_int_step_lower (a b : R) :
  0 <= a -> a <= b -> gauss b * (b - a) <= gauss_int b - gauss_int a.
Proof.
  intros Ha Hab.
  destruct (gauss_int_bounds a b (gauss b) 1) as [L _]; [exact Hab | | exact L].
  intros t Ht. split; [apply gauss_decr; lra | apply gauss_le_1].
Qed.

Lemma atan_step_upper (a b : R) :
  0 <= a -> a <= b -> atan b - atan a <= (b - a) / (1 + a * a).
Proof.
  intros Ha Hab.
  destruct (Req_dec a b) as [E|E].
  - subst. unfold Rdiv. rewrite !Rminus_diag, Rmult_0_l. lra.
  - destruct (MVT_cor2 atan (fun c => / (1 + c ^ 2)) a b) as [c [Hc Hin]];
      [lra | intros; apply derivable_pt_lim_atan |].
    rewrite Hc. unfold Rdiv. rewrite (Rmult_comm (b - a)).
    apply Rmult_le_compat_r; [lra|].
    apply Rinv_le_contravar; nra.
Qed.

Lemma rsum_le (f g : nat -> R) (m : nat) :
  (forall k, f k <= g k) -> rsum f m <= rsum g m.
Proof.
  intro H. induction m as [|m IH]; simpl; [lra|]. specialize (H m). lra.
Qed.

Lemma rsum_const (c : R) (m : nat) : rsum (fun _ => c) m = INR m * c.
Proof.
  induction m as [|m IH]; [simpl; ring|].
  cbn [rsum]. rewrite IH, S_INR. ring.
Qed.

Section RightSums.

Variable n : nat.
Let h : R := / INR (S n).

Lemma step_pos : 0 < h.
Proof. exact (h_pos n). Qed.

Lemma step_full : INR (S n) * h = 1.
Proof. exact (h_full n). Qed.

(** Right Riemann sum of [t |-> gauss (x * t)] over [[0, 1]]. *)
Definition right_lsum (x : R) (m : nat) : R :=
  rsum (fun k => h * gauss (INR (S k) * h * x)) m.

Lemma right_lsum_le_gauss_int (x : R) (m : nat) :
  0 <= x -> x * right_lsum x m <= gauss_int (INR m * h * x).
Proof.
  intro Hx. pose proof step_pos as Hh.
  induction m as [|m IH].
  - simpl. rewrite !Rmult_0_l, gauss_int_0. unfold right_lsum. simpl. lra.
  - unfold right_lsum in *. cbn [rsum].
    assert (Hm : 0 <= INR m) by apply pos_INR.
    assert (H1 : 0 <= INR m * h * x).
    { apply Rmult_le_pos; [apply Rmult_le_pos|]; lra. }
    assert (H2 : INR m * h * x <= INR (S m) * h * x).
    { rewrite S_INR. nra. }
    pose proof (gauss_int_step_lower _ _ H1 H2) as Hs.
    replace (INR (S m) * h * x - INR m * h * x) with (h * x) in Hs
      by (rewrite S_INR; ring).
    lra.
Qed.

Definition right_hsum (x : R) : R := rsum (fun k => hterm n (S k) x) (S n).

Lemma right_hsum_derivable_pt_lim (x : R) :
  derivable_pt_lim right_hsum x (- (2 * x) * gauss x * right_lsum x (S n)).
Proof.
  unfold right_hsum, right_lsum.
  rewrite <- rsum_scal.
  apply (rsum_derivable_pt_lim (fun k => hterm n (S k))
           (fun k t => - (2 * t) * gauss t * (h * gauss (INR (S k) * h * t)))).
  intro k. apply hterm_derivable_pt_lim.
Qed.

Lemma hterm_le (k : nat) (x : R) : hterm n k x <= h * gauss x.
Proof.
  unfold hterm. fold h. pose proof step_pos as Hh.
  set (a := 1 + INR k * h * (INR k * h)).
  assert (Ha : 1 <= a) by (unfold a; nra).
  assert (E : exp (- (x * x) * a) <= gauss x).
  { unfold gauss.
    destruct (Req_dec (- (x * x) * a) (- (x * x))) as [Eq|Ne].
    - rewrite Eq. lra.
    - left. apply exp_increasing. nra. }
  pose proof (exp_pos (- (x * x) * a)) as Hp.
  apply Rle_trans with (h * exp (- (x * x) * a)).
  - assert (Hia : 0 < / a <= 1).
    { split; [apply Rinv_0_lt_compat; lra|].
      rewrite <- Rinv_1. apply Rinv_le_contravar; lra. }
    assert (Hhe : 0 <= h * exp (- (x * x) * a)) by nra.
    unfold Rdiv. nra.
  - apply Rmult_le_compat_l; lra.
Qed.

Lemma right_hsum_le (x : R) : right_hsum x <= gauss x.
Proof.
  unfold right_hsum.
  apply Rle_trans with (rsum (fun _ => h * gauss x) (S n)).
  - apply rsum_le. intro k. apply hterm_le.
  - rewrite rsum_const. rewrite <- Rmult_assoc, step_full. lra.
Qed.

Definition right_fsum (x : R) : R := gauss_int x * gauss_int x + right_hsum x.

Lemma right_fsum_incr (x : R) : 0 <= x -> right_fsum 0 <= right_fsum x.
Proof.
  intro Hx.
  apply (deriv_nonneg_incr right_fsum
           (fun t => 2 * gauss t * (gauss_int t - t * right_lsum t (S n))) 0 x).
  - exact Hx.
  - intros c _. unfold right_fsum.
    replace (2 * gauss c * (gauss_int c - c * right_lsum c (S n)))
      with ((gauss c * gauss_int c + gauss_int c * gauss c)
            + - (2 * c) * gauss c * right_lsum c (S n)) by ring.
    apply derivable_pt_lim_plus; [|apply right_hsum_derivable_pt_lim].
    apply derivable_pt_lim_mult; apply gauss_int_derivable_pt_lim.
  - intros c Hc.
    pose proof (gauss_pos c) as Hg.
    assert (Hl : c * right_lsum c (S n) <= gauss_int c).
    { pose proof (right_lsum_le_gauss_int c (S n)) as H.
      rewrite step_full, Rmult_1_l in H. apply H. lra. }
    nra.
Qed.

(** Right Riemann sum of [t |-> / (1 + t * t)] over [[0, 1]]. *)
Definition right_asum (m : nat) : R :=
  rsum (fun k => h / (1 + (INR (S k) * h) * (INR (S k) * h))) m.

Lemma right_fsum_0 : right_fsum 0 = right_asum (S n).
Proof.
  unfold right_fsum, right_hsum, right_asum, hterm. fold h. rewrite gauss_int_0.
  replace (- (0 * 0)) with 0 by ring.
  assert (E : forall m,
             rsum (fun k => h * exp (0 * (1 + INR (S k) * h * (INR (S k) * h)))
                            / (1 + INR (S k) * h * (INR (S k) * h))) m
             = rsum (fun k => h / (1 + INR (S k) * h * (INR (S k) * h))) m).
  { induction m as [|m IH]; [reflexivity|]. cbn [rsum]. rewrite IH.
    rewrite Rmult_0_l, exp_0. f_equal. unfold Rdiv. ring. }
  rewrite E. ring.
Qed.

Lemma right_asum_ge_atan (m : nat) :
  atan (INR (S m) * h) - atan h <= right_asum m.
Proof.
  pose proof step_pos as Hh.
  induction m as [|m IH].
  - unfold right_asum. cbn [rsum]. simpl INR. rewrite Rmult_1_l. lra.
  - unfold right_asum in *. cbn [rsum].
    assert (Hm : 0 <= INR (S m)) by apply pos_INR.
    assert (H1 : 0 <= INR (S m) * h) by nra.
    assert (H2 : INR (S m) * h <= INR (S (S m)) * h)
      by (rewrite (S_INR (S m)); nra).
    pose proof (atan_step_upper _ _ H1 H2) as Hs.
    replace (INR (S (S m)) * h - INR (S m) * h) with h in Hs
      by (rewrite (S_INR (S m)); ring).
    lra.
Qed.

Lemma right_asum_bound : PI / 4 - h <= right_asum (S n).
Proof.
  pose proof step_pos as Hh.
  apply Rle_trans with (atan (INR (S (S n)) * h) - atan h);
    [|apply right_asum_ge_atan].
  assert (Hle : 1 <= INR (S (S n)) * h).
  { rewrite (S_INR (S n)), Rmult_plus_distr_r, step_full. lra. }
  assert (H1 : atan 1 <= atan (INR (S (S n)) * h)).
  { destruct Hle as [Hlt|Heq].
    - left. apply atan_increasing. exact Hlt.
    - rewrite <- Heq. lra. }
  assert (H2 : atan h <= h).
  { pose proof (atan_step_upper 0 h (Rle_refl 0) (Rlt_le _ _ Hh)) as H.
    rewrite atan_0 in H. replace ((h - 0) / (1 + 0 * 0)) with h in H by field.
    lra. }
  rewrite atan_1 in H1. lra.
Qed.

Lemma gauss_int_sqr_ge (x : R) :
  0 <= x -> PI / 4 - / INR (S n) - gauss x <= gauss_int x * gauss_int x.
Proof.
  intro Hx.
  pose proof (right_fsum_incr x Hx) as Hd.
  rewrite right_fsum_0 in Hd. pose proof right_asum_bound as Ha.
  pose proof (right_hsum_le x) as Hs.
  unfold right_fsum in Hd. fold h. lra.
Qed.

End RightSums.

Lemma gauss_int_sqr_lower (x : R) :
  0 <= x -> PI / 4 - gauss x <= gauss_int x * gauss_int x.
Proof.
  intro Hx.
  destruct (Rle_lt_dec (PI / 4 - gauss x) (gauss_int x * gauss_int x)) as [H|H];
    [exact H|].
  exfalso.
  destruct (archimed_cor1 (PI / 4 - gauss x - gauss_int x * gauss_int x))
    as [N [HN HN0]]; [lra|].
  destruct N as [|n]; [lia|].
  pose proof (gauss_int_sqr_ge n x Hx). lra.
Qed.

Lemma erf_tail (x : R) : 0 <= x -> 1 - erf x <= 4 / PI * gauss x.
Proof.
  intro Hx.
  pose proof (gauss_int_sqr_lower x Hx) as Hl.
  pose proof (erf_nonneg x Hx) as H0. pose proof (erf_le_1_nonneg x Hx) as H1.
  pose proof PI_RGT_0 as HPI. pose proof sqrt_PI_pos as Hs.
  assert (Hsq : sqrt PI * sqrt PI = PI) by (apply sqrt_sqrt; lra).
  assert (E : erf x * erf x = 4 / PI * (gauss_int x * gauss_int x)).
  { unfold erf. rewrite <- Hsq at 3. field. lra. }
  assert (Hq : 1 - erf x * erf x <= 4 / PI * gauss x).
  { rewrite E.
    assert (H4 : 0 < 4 / PI) by (apply Rdiv_lt_0_compat; lra).
    replace 1 with (4 / PI * (PI / 4)) at 1 by (field; lra).
    nra. }
  nra.
Qed.

Lemma Phi_tail (y : R) : 0 <= y -> Phi (- y) <= 2 / PI * exp (- (y * y) / 2).
Proof.
  intro Hy. pose proof sqrt_2_pos as H2. pose proof PI_RGT_0 as HPI.
  assert (S2 : sqrt 2 * sqrt 2 = 2) by (apply sqrt_sqrt; lra).
  unfold Phi.
  replace (- y / sqrt 2) with (- (y / sqrt 2)) by (field; lra).
  rewrite erf_odd.
  assert (Hq : 0 <= y / sqrt 2).
  { apply Rmult_le_pos; [exact Hy | left; apply Rinv_0_lt_compat; exact H2]. }
  pose proof (erf_tail _ Hq) as Ht.
  assert (Eg : gauss (y / sqrt 2) = exp (- (y * y) / 2)).
  { unfold gauss. f_equal.
    replace (y / sqrt 2 * (y / sqrt 2)) with (y * y / (sqrt 2 * sqrt 2)) by (field; lra).
    rewrite S2. field. }
  rewrite Eg in Ht.
  replace (2 / PI * exp (- (y * y) / 2))
    with (0.5 * (4 / PI * exp (- (y * y) / 2)))
    by (replace 0.5 with (/ 2) by lra; field; lra).
  lra.
Qed.

Lemma exp_neg_le (u : R) : 0 <= u -> exp (- u) <= / (1 + u).
Proof.
  intro Hu. rewrite exp_Ropp.
  apply Rinv_le_contravar; [lra|].
  destruct Hu as [Hu|<-].
  - left. apply exp_ineq1. lra.
  - rewrite exp_0. lra.
Qed.

Lemma dnorm_even (x : R) : dnorm (- x) = dnorm x.
Proof. unfold dnorm. f_equal. f_equal. field. Qed.

Lemma dnorm_derivable_pt_lim (x : R) : derivable_pt_lim dnorm x (- x * dnorm x).
Proof.
  unfold dnorm.
  assert (Hs : 0 < sqrt (2 * PI)).
  { apply sqrt_lt_R0. pose proof PI_RGT_0. lra. }
  replace (- x * (exp (- (x * x) / 2) / sqrt (2 * PI)))
    with (exp (- (x * x) / 2) * (- (1 * x + x * 1) * / 2) * / sqrt (2 * PI))
    by (field; lra).
  apply (derivable_pt_lim_scal_right (fun t => exp (- (t * t) / 2))).
  apply (derivable_pt_lim_comp (fun t => - (t * t) / 2) exp).
  - apply (derivable_pt_lim_scal_right (fun t => - (t * t))).
    apply (derivable_pt_lim_opp (fun u => u * u)).
    apply (derivable_pt_lim_mult id id); apply derivable_pt_lim_id.
  - apply derivable_pt_lim_exp.
Qed.

Lemma Phi_primitive_derivable_pt_lim (x : R) :
  derivable_pt_lim Phi_primitive x (Phi x).
Proof.
  unfold Phi_primitive.
  replace (Phi x) with (- x * dnorm x + (1 * Phi x + x * dnorm x)) by ring.
  apply derivable_pt_lim_plus; [apply dnorm_derivable_pt_lim|].
  apply (derivable_pt_lim_mult id Phi);
    [apply derivable_pt_lim_id | apply Phi_derivable_pt_lim].
Qed.

Lemma Phi_primitive_incr (a b : R) : a <= b -> Phi_primitive a <= Phi_primitive b.
Proof.
  intro Hab.
  apply (deriv_nonneg_incr Phi_primitive Phi a b);
    [exact Hab | intros; apply Phi_primitive_derivable_pt_lim
    | intros; apply Phi_bounds].
Qed.

Lemma Phi_primitive_far_left (y : R) : 0 < y -> - (4 / (PI * y)) <= Phi_primitive (- y).
Proof.
  intro Hy. pose proof PI_RGT_0 as HPI.
  unfold Phi_primitive. rewrite dnorm_even.
  pose proof (dnorm_pos y) as Hd.
  pose proof (Phi_tail y (Rlt_le _ _ Hy)) as Ht.
  assert (Hu : 0 <= y * y / 2) by nra.
  pose proof (exp_neg_le _ Hu) as He.
  replace (- (y * y / 2)) with (- (y * y) / 2) in He by field.
  assert (Hb : y * / (1 + y * y / 2) <= 2 / y).
  { apply Rmult_le_reg_r with (1 + y * y / 2); [lra|].
    rewrite Rmult_assoc, Rinv_l by lra.
    replace (2 / y * (1 + y * y / 2)) with (2 / y + y) by (field; lra).
    assert (0 < 2 / y) by (apply Rdiv_lt_0_compat; lra). lra. }
  assert (Hyp : y * Phi (- y) <= 4 / (PI * y)).
  { apply Rle_trans with (y * (2 / PI * / (1 + y * y / 2))).
    - apply Rmult_le_compat_l; [lra|].
      apply Rle_trans with (2 / PI * exp (- (y * y) / 2)); [exact Ht|].
      apply Rmult_le_compat_l; [|exact He].
      left. apply Rdiv_lt_0_compat; lra.
    - replace (y * (2 / PI * / (1 + y * y / 2)))
        with (2 / PI * (y * / (1 + y * y / 2))) by ring.
      replace (4 / (PI * y)) with (2 / PI * (2 / y)) by (field; lra).
      apply Rmult_le_compat_l; [|exact Hb].
      left. apply Rdiv_lt_0_compat; lra. }
  lra.
Qed.

Lemma Phi_primitive_nonneg (x : R) : 0 <= Phi_primitive x.
Proof.
  destruct (Rle_lt_dec 0 (Phi_primitive x)) as [H|H]; [exact H|].
  exfalso. pose proof PI_RGT_0 as HPI.
  set (c := - Phi_primitive x). assert (Hc : 0 < c) by (unfold c; lra).
  set (y := Rmax (- x) (4 / (PI * c)) + 1).
  assert (H4 : 0 < 4 / (PI * c)).
  { apply Rdiv_lt_0_compat; [lra | apply Rmult_lt_0_compat; lra]. }
  assert (Hy1 : - x < y) by (unfold y; pose proof (Rmax_l (- x) (4 / (PI * c))); lra).
  assert (Hy2 : 4 / (PI * c) < y)
    by (unfold y; pose proof (Rmax_r (- x) (4 / (PI * c))); lra).
  assert (Hy : 0 < y) by lra.
  pose proof (Phi_primitive_far_left y Hy) as Hf.
  pose proof (Phi_primitive_incr (- y) x) as Hi.
  assert (Hlt : 4 / (PI * y) < c).
  { apply Rmult_lt_reg_r with (PI * y); [apply Rmult_lt_0_compat; lra|].
    replace (4 / (PI * y) * (PI * y)) with 4 by (field; lra).
    assert (E : 4 / (PI * c) * (PI * c) = 4) by (field; lra).
    nra. }
  unfold c in Hlt. lra.
Qed.

Lemma Phi_ratio_derivable_pt_lim (x : R) :
  derivable_pt_lim Phi_ratio x (exp (x * x / 2) * Phi_primitive x).
Proof.
  unfold Phi_ratio, Phi_primitive.
  assert (Hs : 0 < sqrt (2 * PI)).
  { apply sqrt_lt_R0. pose proof PI_RGT_0. lra. }
  replace (exp (x * x / 2) * (dnorm x + x * Phi x))
    with (dnorm x * exp (x * x / 2)
          + Phi x * (exp (x * x / 2) * ((1 * x + x * 1) * / 2))) by field.
  apply (derivable_pt_lim_mult Phi (fun t => exp (t * t / 2)));
    [apply Phi_derivable_pt_lim|].
  apply (derivable_pt_lim_comp (fun t => t * t / 2) exp).
  - apply (derivable_pt_lim_scal_right (fun t => t * t)).
    apply (derivable_pt_lim_mult id id); apply derivable_pt_lim_id.
  - apply derivable_pt_lim_exp.
Qed.

Lemma Phi_ratio_incr (a b : R) : a <= b -> Phi_ratio a <= Phi_ratio b.
Proof.
  intro Hab.
  apply (deriv_nonneg_incr Phi_ratio (fun t => exp (t * t / 2) * Phi_primitive t) a b).
  - exact Hab.
  - intros. apply Phi_ratio_derivable_pt_lim.
  - intros c _. apply Rmult_le_pos; [left; apply exp_pos | apply Phi_primitive_nonneg].
Qed.

Lemma Phi_as_ratio (x : R) : Phi x = sqrt (2 * PI) * dnorm x * Phi_ratio x.
Proof.
  unfold Phi_ratio, dnorm.
  assert (Hs : 0 < sqrt (2 * PI)).
  { apply sqrt_lt_R0. pose proof PI_RGT_0. lra. }
  assert (E : exp (- (x * x) / 2) * exp (x * x / 2) = 1).
  { rewrite <- exp_plus. replace (- (x * x) / 2 + x * x / 2) with 0 by field.
    apply exp_0. }
  transitivity (Phi x * (exp (- (x * x) / 2) * exp (x * x / 2))).
  - rewrite E. ring.
  - field. lra.
Qed.

Section Floor.

Variables K r sigma T : R.
Hypothesis HK : 0 < K.
Hypothesis Hsigma : 0 < sigma.
Hypothesis HT : 0 < T.

Lemma bs_call_nonneg (s : R) : 0 < s -> 0 <= bs_call s K r sigma T.
Proof.
  intro Hs.
  pose proof (density_balance K r sigma T HK Hsigma HT s Hs) as Hb.
  pose proof (vol_time_pos sigma T Hsigma HT) as Hv.
  unfold bs_call. set (d1 := bs_d1 s K r sigma T) in *.
  set (d2 := bs_d2 s K r sigma T) in *.
  assert (Hd : d2 <= d1) by (unfold d2, bs_d2; fold d1; lra).
  pose proof (Phi_ratio_incr d2 d1 Hd) as Hq.
  rewrite (Phi_as_ratio d1), (Phi_as_ratio d2).
  assert (Hc : 0 < sqrt (2 * PI)).
  { apply sqrt_lt_R0. pose proof PI_RGT_0. lra. }
  pose proof (dnorm_pos d1) as Hp.
  replace (s * (sqrt (2 * PI) * dnorm d1 * Phi_ratio d1)
           - K * exp (- r * T) * (sqrt (2 * PI) * dnorm d2 * Phi_ratio d2))
    with (sqrt (2 * PI) * (s * dnorm d1) * (Phi_ratio d1 - Phi_ratio d2)).
  2:{ transitivity (sqrt (2 * PI) * (s * dnorm d1) * Phi_ratio d1
                    - sqrt (2 * PI) * (K * exp (- r * T) * dnorm d2) * Phi_ratio d2);
        [rewrite <- Hb; ring | ring]. }
  apply Rmult_le_pos; [|lra].
  apply Rmult_le_pos; [lra|]. apply Rmult_le_pos; lra.
Qed.

Lemma bs_put_nonneg (s : R) : 0 < s -> 0 <= bs_put s K r sigma T.
Proof.
  intro Hs.
  pose proof (density_balance K r sigma T HK Hsigma HT s Hs) as Hb.
  pose proof (vol_time_pos sigma T Hsigma HT) as Hv.
  unfold bs_put. set (d1 := bs_d1 s K r sigma T) in *.
  set (d2 := bs_d2 s K r sigma T) in *.
  assert (Hd : - d1 <= - d2) by (unfold d2, bs_d2; fold d1; lra).
  pose proof (Phi_ratio_incr (- d1) (- d2) Hd) as Hq.
  rewrite (Phi_as_ratio (- d1)), (Phi_as_ratio (- d2)), !dnorm_even.
  assert (Hc : 0 < sqrt (2 * PI)).
  { apply sqrt_lt_R0. pose proof PI_RGT_0. lra. }
  pose proof (dnorm_pos d1) as Hp.
  replace (K * exp (- r * T) * (sqrt (2 * PI) * dnorm d2 * Phi_ratio (- d2))
           - s * (sqrt (2 * PI) * dnorm d1 * Phi_ratio (- d1)))
    with (sqrt (2 * PI) * (s * dnorm d1) * (Phi_ratio (- d2) - Phi_ratio (- d1))).
  2:{ transitivity (sqrt (2 * PI) * (K * exp (- r * T) * dnorm d2) * Phi_ratio (- d2)
                    - sqrt (2 * PI) * (s * dnorm d1) * Phi_ratio (- d1));
        [rewrite <- Hb; ring | ring]. }
  apply Rmult_le_pos; [|lra].
  apply Rmult_le_pos; [lra|]. apply Rmult_le_pos; lra.
Qed.

End Floor.

(** * Further properties of the pricing functions *)

(** X13.  For positive spot, strike and volatility both values lie within the
    bounds that rule out arbitrage: a call is worth at least
    [max (0, S - K')] and at most [S], a put at least [max (0, K' - S)] and
    at most [K'], with [K'] the discounted strike.  In particular no value
    is negative. *)
Theorem value_bounds (S K r sigma T : R) :
  0 < S -> 0 < K -> 0 < sigma ->
  exists c p,
    call_value S K r sigma T = Ok c /\
    put_value S K r sigma T = Ok p /\
    Rmax 0 (S - discounted_strike K r T) <= c <= S /\
    Rmax 0 (discounted_strike K r T - S) <= p <= discounted_strike K r T.
Proof.
  intros HS HK Hs. unfold discounted_strike.
  destruct (Rle_dec T 0) as [HT|HT].
  - exists (py_max 0 (S - K)), (py_max 0 (K - S)).
    rewrite call_value_expired, put_value_expired by exact HT.
    rewrite !py_max_Rmax.
    split; [reflexivity|]. split; [reflexivity|].
    unfold Rmax. repeat destruct (Rle_dec _ _); lra.
  - assert (HT' : 0 < T) by lra.
    assert (Hq : 0 < S / K) by (apply Rdiv_lt_0_compat; assumption).
    exists (bs_call S K r sigma T), (bs_put S K r sigma T).
    rewrite call_value_formula, put_value_formula by lra.
    split; [reflexivity|]. split; [reflexivity|].
    pose proof (bs_call_nonneg K r sigma T HK Hs HT' S HS) as Hc.
    pose proof (bs_put_nonneg K r sigma T HK Hs HT' S HS) as Hp.
    pose proof (bs_put_parity K r sigma T S) as Hpar.
    assert (Hd : 0 < K * exp (- r * T)).
    { apply Rmult_lt_0_compat; [exact HK | apply exp_pos]. }
    assert (Hcu : bs_call S K r sigma T <= S).
    { unfold bs_call.
      pose proof (Phi_bounds (bs_d1 S K r sigma T)) as [_ H1].
      pose proof (Phi_bounds (bs_d2 S K r sigma T)) as [H2 _].
      assert (0 <= K * exp (- r * T) * Phi (bs_d2 S K r sigma T))
        by (apply Rmult_le_pos; lra).
      nra. }
    unfold Rmax. repeat destruct (Rle_dec _ _); lra.
Qed.

Lemma value_bounds_witness :
  exists c p,
    call_value 105 100 0.05 0.25 1 = Ok c /\
    put_value 105 100 0.05 0.25 1 = Ok p /\
    Rmax 0 (105 - discounted_strike 100 0.05 1) <= c <= 105 /\
    Rmax 0 (discounted_strike 100 0.05 1 - 105) <= p <= discounted_strike 100 0.05 1.
Proof.
  apply (value_bounds 105 100 0.05 0.25 1); lra.
Defined.

(** X14.  Over the valid domain a rise of the spot moves neither value by more
    than the rise itself: the call gains between nothing and the whole
    rise, the put loses between nothing and the whole rise. *)
Theorem spot_sensitivity_at_most_one (K r sigma T S1 S2 : R) :
  0 < K -> 0 < sigma -> 0 < S1 -> S1 <= S2 ->
  exists c1 c2 p1 p2,
    call_value S1 K r sigma T = Ok c1 /\
    call_value S2 K r sigma T = Ok c2 /\
    put_value S1 K r sigma T = Ok p1 /\
    put_value S2 K r sigma T = Ok p2 /\
    0 <= c2 - c1 <= S2 - S1 /\
    0 <= p1 - p2 <= S2 - S1.
Proof.
  intros HK Hs H1 H12.
  destruct (Rle_lt_dec T 0) as [HT|HT].
  - exists (py_max 0 (S1 - K)), (py_max 0 (S2 - K)),
           (py_max 0 (K - S1)), (py_max 0 (K - S2)).
    rewrite !call_value_expired, !put_value_expired by exact HT.
    repeat (split; [reflexivity|]).
    rewrite !py_max_Rmax. unfold Rmax.
    repeat destruct (Rle_dec _ _); lra.
  - assert (Hq1 : 0 < S1 / K) by (apply Rdiv_lt_0_compat; lra).
    assert (Hq2 : 0 < S2 / K) by (apply Rdiv_lt_0_compat; lra).
    exists (bs_call S1 K r sigma T), (bs_call S2 K r sigma T),
           (bs_put S1 K r sigma T), (bs_put S2 K r sigma T).
    rewrite !call_value_formula, !put_value_formula by lra.
    repeat (split; [reflexivity|]).
    pose proof (bs_call_incr K r sigma T HK Hs HT S1 S2 H1 H12).
    pose proof (bs_call_slope_le_1 K r sigma T HK Hs HT S1 S2 H1 H12).
    rewrite !(bs_put_parity K r sigma T).
    lra.
Qed.

Lemma spot_sensitivity_at_most_one_witness :
  exists c1 c2 p1 p2,
    call_value 100 100 0.05 0.25 1 = Ok c1 /\
    call_value 105 100 0.05 0.25 1 = Ok c2 /\
    put_value 100 100 0.05 0.25 1 = Ok p1 /\
    put_value 105 100 0.05 0.25 1 = Ok p2 /\
    0 <= c2 - c1 <= 105 - 100 /\
    0 <= p1 - p2 <= 105 - 100.
Proof.
  apply (spot_sensitivity_at_most_one 100 0.05 0.25 1 100 105); lra.
Defined.

(** X15.  The two pricing functions fail together: on any input one of them
    raises an exception exactly when the other raises the same one. *)
Theorem call_put_raise_together (S K r sigma T : R) (e : exn) :
  call_value S K r sigma T = Raise e <-> put_value S K r sigma T = Raise e.
Proof.
  destruct (Rle_lt_dec T 0) as [HT|HT].
  - rewrite call_value_expired, put_value_expired by exact HT.
    split; discriminate.
  - rewrite call_value_live, put_value_live by exact HT.
    destruct (py_div S K) as [q|e1]; simpl; [|tauto].
    destruct (py_log q) as [l|e2]; simpl; [|tauto].
    destruct (py_div _ _) as [d1|e3]; simpl; [|tauto].
    split; discriminate.
Qed.

(** X16.  Once [T <= 0] put-call parity holds without discounting, for all
    inputs: the call value minus the put value is [S - K]. *)
Theorem expired_parity (S K r sigma T : R) :
  T <= 0 ->
  exists c p,
    call_value S K r sigma T = Ok c /\
    put_value S K r sigma T = Ok p /\
    c - p = S - K.
Proof.
  intro HT. exists (py_max 0 (S - K)), (py_max 0 (K - S)).
  rewrite call_value_expired, put_value_expired by exact HT.
  split; [reflexivity|]. split; [reflexivity|].
  unfold py_max. repeat destruct (Rlt_dec _ _); lra.
Qed.

Lemma expired_parity_witness :
  exists c p,
    call_value 95 100 0.05 0.25 (-1) = Ok c /\
    put_value 95 100 0.05 0.25 (-1) = Ok p /\
    c - p = 95 - 100.
Proof.
  apply (expired_parity 95 100 0.05 0.25 (-1)). lra.
Defined.

(** X17.  Over exact reals both pricing functions are homogeneous of degree
    one in spot and strike: quoting both in another unit ([lam > 0]) scales
    the value by [lam], and an input that raises keeps raising the same
    exception.  Rounding is not part of the statement. *)
Theorem price_scales_with_unit (lam S K r sigma T : R) :
  0 < lam ->
  call_value (lam * S) (lam * K) r sigma T
    = scale_outcome lam (call_value S K r sigma T) /\
  put_value (lam * S) (lam * K) r sigma T
    = scale_outcome lam (put_value S K r sigma T).
Proof.
  intro Hl.
  destruct (Rle_lt_dec T 0) as [HT|HT].
  - rewrite !call_value_expired, !put_value_expired by exact HT. simpl.
    unfold py_max.
    split; f_equal; repeat destruct (Rlt_dec _ _); try nra.
  - rewrite !call_value_live, !put_value_live by exact HT.
    destruct (Req_dec K 0) as [->|HK].
    + rewrite Rmult_0_r, !py_div_zero. split; reflexivity.
    + assert (HlK : lam * K <> 0) by (apply Rmult_integral_contrapositive_currified; lra).
      rewrite (py_div_ok (lam * S) (lam * K)) by exact HlK.
      rewrite (py_div_ok S K) by exact HK.
      replace (lam * S / (lam * K)) with (S / K) by (field; split; lra).
      simpl. destruct (py_log (S / K)) as [l|e]; simpl; [|split; reflexivity].
      destruct (py_div _ _) as [d1|e]; simpl; [|split; reflexivity].
      split; f_equal; ring.
Qed.

Lemma price_scales_with_unit_witness :
  call_value (100 * 1.05) (100 * 1) 0.05 0.25 1
    = scale_outcome 100 (call_value 1.05 1 0.05 0.25 1) /\
  put_value (100 * 1.05) (100 * 1) 0.05 0.25 1
    = scale_outcome 100 (put_value 1.05 1 0.05 0.25 1).
Proof.
  apply (price_scales_with_unit 100 1.05 1 0.05 0.25 1). lra.
Defined.

(** * Further properties of the resolvers *)

Lemma history_block (t : ticker_obj) :
  try_except
    (data <- history t ;;
     if negb (hist_empty data)
     then c <- hist_last_close data ;; Ok (Some c)
     else Ok None) (Ok None) = Ok (history_price t).
Proof.
  unfold history_price.
  destruct (history t) as [data|e]; [simpl|reflexivity].
  destruct (hist_empty data); [reflexivity|]. simpl.
  destruct (hist_last_close data); reflexivity.
Qed.

(** X11.  The order in which the price resolver trusts its sources.  A fast
    last price wins; without one, the quote of [info] is used; the minute
    history is read only when both hold nothing.  An exception in the
    first block skips whatever is left of it: after it the result is the
    history's alone, even where [info] holds a quote. *)
Theorem price_source_precedence (yf : provider) (symbol : string) (t : ticker_obj) :
  Ticker yf symbol = Ok t ->
  (forall fi p,
      has_fast_info t = Ok true -> fast_info t = Ok fi ->
      fi "lastPrice"%string = Some p ->
      get_live_price yf symbol = Ok (Some p)) /\
  (forall d p,
      no_fast_price t -> info t = Ok d ->
      d "regularMarketPrice"%string = Some p ->
      get_live_price yf symbol = Ok (Some p)) /\
  (forall d,
      no_fast_price t -> info t = Ok d ->
      d "regularMarketPrice"%string = None ->
      get_live_price yf symbol = Ok (history_price t)) /\
  (first_block_raises t -> get_live_price yf symbol = Ok (history_price t)).
Proof.
  intro Ht. unfold get_live_price. rewrite Ht. simpl.
  split; [|split; [|split]].
  - intros fi p Hf Hfi Hp. rewrite Hf. simpl. rewrite Hfi. simpl. rewrite Hp.
    reflexivity.
  - intros d p [Hf|[Hf [fi [Hfi Hn]]]] Hd Hp.
    + rewrite Hf. simpl. rewrite Hd. simpl. rewrite Hp. reflexivity.
    + rewrite Hf. simpl. rewrite Hfi. simpl. rewrite Hn, Hd. simpl. rewrite Hp.
      reflexivity.
  - intros d [Hf|[Hf [fi [Hfi Hn]]]] Hd Hp.
    + rewrite Hf. simpl. rewrite Hd. simpl. rewrite Hp. simpl. apply history_block.
    + rewrite Hf. simpl. rewrite Hfi. simpl. rewrite Hn, Hd. simpl. rewrite Hp.
      simpl. apply history_block.
  - intros [[e H]|Hf [e H]|fi Hf Hfi Hn [e H]|Hf [e H]].
    + rewrite H. simpl. apply history_block.
    + rewrite Hf. simpl. rewrite H. simpl. apply history_block.
    + rewrite Hf. simpl. rewrite Hfi. simpl. rewrite Hn, H. simpl.
      apply history_block.
    + rewrite Hf. simpl. rewrite H. simpl. apply history_block.
Qed.

Lemma price_source_precedence_witness :
  get_live_price broken_fast_yf "ABC" = Ok (history_price broken_fast_ticker).
Proof.
  destruct (price_source_precedence broken_fast_yf "ABC" broken_fast_ticker eq_refl)
    as [_ [_ [_ H]]].
  apply H. apply fast_info_raises; [reflexivity|].
  exists (ProviderError "timeout"). reflexivity.
Defined.

(** X12.  Among rows equally near to the target the first one of the chain is
    taken: every row before the chosen one is strictly farther from the
    target, every row after it is at least as far. *)
Theorem idxmin_row_first (target_strike : R) (rest : list chain_row) :
  forall best,
  exists before after,
    best :: rest = before ++ idxmin_row target_strike best rest :: after /\
    (forall row, In row before ->
       row_diff target_strike (idxmin_row target_strike best rest)
       < row_diff target_strike row) /\
    (forall row, In row after ->
       row_diff target_strike (idxmin_row target_strike best rest)
       <= row_diff target_strike row).
Proof.
  induction rest as [|row rest IH]; intro best; simpl.
  - exists [], []. split; [reflexivity|]. split; intros r [].
  - destruct (Rlt_dec (row_diff target_strike row) (row_diff target_strike best))
      as [Hlt|Hge].
    + destruct (IH row) as [before [after [E [Hb Ha]]]].
      assert (Hrow : row_diff target_strike (idxmin_row target_strike row rest)
                     <= row_diff target_strike row).
      { assert (Hin : In row (before ++ idxmin_row target_strike row rest :: after))
          by (rewrite <- E; left; reflexivity).
        apply in_app_or in Hin. destruct Hin as [Hin|[Hin|Hin]].
        - left. apply Hb. exact Hin.
        - rewrite Hin. apply Rle_refl.
        - apply Ha. exact Hin. }
      exists (best :: before), after.
      split; [simpl; f_equal; exact E|].
      split; [|exact Ha].
      intros r [<-|Hr]; [lra | apply Hb; exact Hr].
    + destruct (IH best) as [before [after [E [Hb Ha]]]].
      destruct before as [|b before].
      * injection E as E1 E2. exists [], (row :: after).
        split; [rewrite <- E1, E2; reflexivity|].
        split; [intros r []|].
        intros r [<-|Hr]; [rewrite <- E1; lra | apply Ha; exact Hr].
      * injection E as E1 E2.
        exists (best :: row :: before), after.
        split; [simpl; do 2 f_equal; exact E2|].
        split; [|exact Ha].
        assert (Hbest : row_diff target_strike (idxmin_row target_strike best rest)
                        < row_diff target_strike best)
          by (apply Hb; left; symmetry; exact E1).
        intros r [<-|[<-|Hr]]; [exact Hbest | lra | apply Hb; right; exact Hr].
Qed.

(** * Further properties of the valuation loop *)

Lemma dict_get_set_same {V : Type} (d : dict V) (k : string) (v : V) :
  dict_get (dict_set d k v) k = Some v.
Proof. unfold dict_set. simpl. rewrite String.eqb_refl. reflexivity. Qed.

Lemma dict_get_set_other {V : Type} (d : dict V) (k k' : string) (v : V) :
  k' <> k -> dict_get (dict_set d k v) k' = dict_get d k'.
Proof.
  intro H. unfold dict_set. simpl.
  destruct (String.eqb k' k) eqn:E; [|reflexivity].
  apply String.eqb_eq in E. contradiction.
Qed.

Lemma fetch_prices_lookup (p : provider) (tickers : list string) :
  forall ticker_data fetched,
    fetch_prices p tickers ticker_data = Ok fetched ->
    forall k,
      (In k (map strip tickers) ->
       exists price, get_live_price p k = Ok price /\ dict_get fetched k = Some price) /\
      (~ In k (map strip tickers) -> dict_get fetched k = dict_get ticker_data k).
Proof.
  induction tickers as [|tck rest IH]; intros ticker_data fetched H k.
  - simpl in H. injection H as <-. split; [intros [] | reflexivity].
  - simpl in H.
    destruct (get_live_price p (strip tck)) as [price|e] eqn:Ep; simpl in H;
      [|discriminate].
    destruct (IH _ _ H k) as [Hin Hout].
    destruct (in_dec string_dec k (map strip rest)) as [Hr|Hr].
    + split; [intros _; apply Hin; exact Hr|].
      intro Hn. exfalso. apply Hn. right. exact Hr.
    + rewrite (Hout Hr). split.
      * intros [<-|Hk]; [|contradiction].
        exists price. split; [exact Ep | apply dict_get_set_same].
      * intro Hn. apply dict_get_set_other.
        intros ->. apply Hn. left. reflexivity.
Qed.

(** X6.  What a row finds in [ticker_data] under its stripped ticker is what
    the price resolver answered for that symbol in this cycle: every
    position has an entry, also when several spellings strip to one key. *)
Theorem ticker_data_holds_resolver_answer (w : cycle_world) (pos : position) :
  In pos (positions w) ->
  exists price,
    get_live_price (yf w) (strip (ticker pos)) = Ok price /\
    dict_get (cycle_ticker_data w) (strip (ticker pos)) = Some price /\
    live_price_of (cycle_ticker_data w) pos = price.
Proof.
  intro Hin.
  destruct (fetch_prices_lookup _ _ _ _ (fetch_prices_cycle w) (strip (ticker pos)))
    as [H _].
  destruct H as [price [Hp Hd]].
  - apply in_map. unfold unique_tickers. apply nodup_In. apply in_map. exact Hin.
  - exists price. split; [exact Hp|]. split; [exact Hd|].
    unfold live_price_of. rewrite Hd. destruct price; reflexivity.
Qed.

Lemma ticker_data_holds_resolver_answer_witness :
  exists price,
    get_live_price (yf (example_world [pos_baddate; pos_call])) (strip (ticker pos_call))
      = Ok price /\
    dict_get (cycle_ticker_data (example_world [pos_baddate; pos_call]))
      (strip (ticker pos_call)) = Some price /\
    live_price_of (cycle_ticker_data (example_world [pos_baddate; pos_call])) pos_call
      = price.
Proof.
  apply (ticker_data_holds_resolver_answer (example_world [pos_baddate; pos_call])
           pos_call).
  right. left. reflexivity.
Defined.

(** X7.  When the price resolver has no price for a ticker, the row of every
    position on that ticker whose date parses takes the no-data branch: the
    line it hands to the screen is the no-data line, whatever its type,
    strike or move are.  The screen write that follows is not part of the
    statement. *)
Theorem unavailable_price_gives_no_data (w : cycle_world) (live_r : R) (i : nat)
    (pos : position) (parsed_exp : Z) :
  In pos (positions w) ->
  get_live_price (yf w) (strip (ticker pos)) = Ok None ->
  dateparser_parse w (expiration_date pos) = Some parsed_exp ->
  value_position w live_r (cycle_ticker_data w) i pos
  = Ok (NoDataLine (ticker pos) (option_type pos) parsed_exp).
Proof.
  intros Hin Hp Hd.
  destruct (fetch_prices_lookup _ _ _ _ (fetch_prices_cycle w) (strip (ticker pos)))
    as [H _].
  destruct H as [price [Hp' Hg]].
  - apply in_map. unfold unique_tickers. apply nodup_In. apply in_map. exact Hin.
  - rewrite Hp in Hp'. injection Hp' as <-.
    apply value_position_failure. apply (no_data _ _ _ parsed_exp); [exact Hd|].
    unfold live_price_of. rewrite Hg. reflexivity.
Qed.

Lemma unavailable_price_gives_no_data_witness :
  value_position (silent_world [pos_call]) 0.05
    (cycle_ticker_data (silent_world [pos_call])) 0 pos_call
  = Ok (NoDataLine (ticker pos_call) (option_type pos_call) example_exp).
Proof.
  apply (unavailable_price_gives_no_data (silent_world [pos_call]) 0.05 0 pos_call
           example_exp).
  - left. reflexivity.
  - reflexivity.
  - reflexivity.
Defined.

Lemma timedelta_days_under_one (a b : Z) :
  (a - b < 86400000000)%Z -> (timedelta_days a b <= 0)%Z.
Proof.
  intro H. unfold timedelta_days.
  assert (Hlt : ((a - b) / 86400000000 < 1)%Z).
  { apply Z.div_lt_upper_bound; lia. }
  lia.
Qed.

(** X8.  Time to expiry counts whole days only.  A position that expires less
    than one day after the clock reading of its row, or has expired, is
    priced with [T <= 0]: its value is the intrinsic value of the applied
    price, and rate and volatility play no part. *)
Theorem last_day_priced_at_intrinsic (w : cycle_world) (live_r : R)
    (ticker_data : dict (option R)) (i : nat) (pos : position)
    (parsed_exp : Z) (live_price sigma_used : R) :
  priced_with w ticker_data pos parsed_exp live_price sigma_used ->
  (parsed_exp - datetime_now w i < 86400000000)%Z ->
  exists v,
    value_position w live_r ticker_data i pos = Ok (DataLine v) /\
    v_T v <= 0 /\
    v_applied_price v = live_price + move_val_of w pos /\
    v_bs_val_per_share v
    = (if String.eqb (option_type pos) "call"
       then Rmax 0 (v_applied_price v - strike pos)
       else Rmax 0 (strike pos - v_applied_price v)).
Proof.
  intros Hpw Hday.
  rewrite (value_position_priced _ live_r _ i _ _ _ _ Hpw).
  assert (HT : time_to_expiry w i parsed_exp <= 0).
  { unfold time_to_expiry.
    pose proof (timedelta_days_under_one _ _ Hday) as Hz.
    apply IZR_le in Hz.
    apply Rmult_le_reg_r with 365; [lra|].
    unfold Rdiv. rewrite Rmult_assoc, Rinv_l by lra. lra. }
  unfold price_position.
  destruct (String.eqb (option_type pos) "call").
  - rewrite call_value_expired by exact HT. simpl.
    eexists. split; [reflexivity|]. cbn.
    split; [exact HT|]. split; [reflexivity | apply py_max_Rmax].
  - rewrite put_value_expired by exact HT. simpl.
    eexists. split; [reflexivity|]. cbn.
    split; [exact HT|]. split; [reflexivity | apply py_max_Rmax].
Qed.

Lemma last_day_priced_at_intrinsic_witness :
  exists v,
    value_position (expiry_day_world [pos_call]) 0.05 example_data 0 pos_call
      = Ok (DataLine v) /\
    v_T v <= 0 /\
    v_applied_price v = 105 + move_val_of (expiry_day_world [pos_call]) pos_call /\
    v_bs_val_per_share v
    = (if String.eqb (option_type pos_call) "call"
       then Rmax 0 (v_applied_price v - strike pos_call)
       else Rmax 0 (strike pos_call - v_applied_price v)).
Proof.
  apply (last_day_priced_at_intrinsic (expiry_day_world [pos_call]) 0.05 example_data
           0 pos_call example_exp 105 0.31).
  - split; try reflexivity. exact example_vol.
  - reflexivity.
Defined.

Lemma load_positions_In (float_of : string -> option R) (int_of : string -> option Z)
    (rows : list (list string)) (pos : position) :
  In pos (load_positions float_of int_of rows) <->
  exists row, In row rows /\ load_row float_of int_of row = Some pos.
Proof.
  induction rows as [|r rows IH]; simpl.
  - split; [intros [] | intros [row [[] _]]].
  - destruct (load_row float_of int_of r) as [p|] eqn:E.
    + split.
      * intros [<-|H]; [exists r; split; [left; reflexivity | exact E]|].
        apply IH in H. destruct H as [row [Hin Hl]].
        exists row. split; [right; exact Hin | exact Hl].
      * intros [row [[<-|Hin] Hl]].
        -- left. rewrite E in Hl. injection Hl as ->. reflexivity.
        -- right. apply IH. exists row. split; assumption.
    + rewrite IH. split.
      * intros [row [Hin Hl]]. exists row. split; [right; exact Hin | exact Hl].
      * intros [row [[<-|Hin] Hl]]; [rewrite E in Hl; discriminate|].
        exists row. split; assumption.
Qed.

(** X5.  For positions that came through the reader the ticker itself is the
    key of [ticker_data]: the [strip] calls of the valuation loop change
    nothing, and the entry under the ticker is the price resolver's answer
    for it. *)
Theorem loaded_ticker_is_key (float_of : string -> option R)
    (int_of : string -> option Z) (rows : list (list string))
    (w : cycle_world) (pos : position) :
  positions w = load_positions float_of int_of rows ->
  In pos (positions w) ->
  exists price,
    get_live_price (yf w) (ticker pos) = Ok price /\
    dict_get (cycle_ticker_data w) (ticker pos) = Some price.
Proof.
  intros Hw Hin.
  destruct (ticker_data_holds_resolver_answer w pos Hin) as [price [Hp [Hd _]]].
  rewrite Hw in Hin. apply load_positions_In in Hin.
  destruct Hin as [row [_ Hl]].
  destruct (load_row_normalised _ _ _ _ Hl) as [Hs _].
  rewrite Hs in Hp, Hd. exists price. split; assumption.
Qed.

Lemma example_rows_loaded :
  load_positions example_float example_int example_rows = [pos_call].
Proof. reflexivity. Qed.

Lemma loaded_ticker_is_key_witness :
  exists price,
    get_live_price (yf (example_world [pos_call])) (ticker pos_call) = Ok price /\
    dict_get (cycle_ticker_data (example_world [pos_call])) (ticker pos_call)
    = Some price.
Proof.
  apply (loaded_ticker_is_key example_float example_int example_rows
           (example_world [pos_call]) pos_call).
  - symmetry. exact example_rows_loaded.
  - left. reflexivity.
Defined.

(** X9.  Nothing between the resolvers and the pricing call checks the
    applied price.  For an unexpired position of known type with a positive
    strike, an applied price that the simulated move brings to zero or below
    makes the row raise [ValueError] from [math.log]. *)
Theorem row_raises_on_nonpositive_applied_price (w : cycle_world) (live_r : R)
    (ticker_data : dict (option R)) (i : nat) (pos : position)
    (parsed_exp : Z) (live_price sigma_used : R) :
  priced_with w ticker_data pos parsed_exp live_price sigma_used ->
  0 < time_to_expiry w i parsed_exp ->
  0 < strike pos ->
  live_price + move_val_of w pos <= 0 ->
  value_position w live_r ticker_data i pos = Raise ValueError.
Proof.
  intros Hpw HT HK HS.
  rewrite (value_position_priced _ live_r _ i _ _ _ _ Hpw).
  unfold price_position.
  assert (Hq : (live_price + move_val_of w pos) / strike pos <= 0).
  { apply Rmult_le_reg_r with (strike pos); [exact HK|].
    unfold Rdiv. rewrite Rmult_assoc, Rinv_l by lra. lra. }
  destruct (String.eqb (option_type pos) "call").
  - rewrite call_value_live by exact HT. rewrite py_div_ok by lra. simpl.
    rewrite py_log_domain by exact Hq. reflexivity.
  - rewrite put_value_live by exact HT. rewrite py_div_ok by lra. simpl.
    rewrite py_log_domain by exact Hq. reflexivity.
Qed.

Lemma row_raises_on_nonpositive_applied_price_witness :
  value_position (example_world [pos_crash]) 0.05 example_data 0 pos_crash
  = Raise ValueError.
Proof.
  apply (row_raises_on_nonpositive_applied_price (example_world [pos_crash]) 0.05
           example_data 0 pos_crash example_exp 105 0.31).
  - apply pos_crash_priced.
  - rewrite example_time. lra.
  - change (strike pos_crash) with 100. lra.
  - change (move_val_of (example_world [pos_crash]) pos_crash) with (-200). lra.
Defined.







